(** * AirSwap Messenger: JSON-RPC over one WebSocket

    A shallow embedding of the [Messenger] class (the peer-to-peer
    messaging client of airswap.js) and the verification of its
    call-correlation, authentication and dispatch behaviour.

    The class is event driven: every handler runs to completion and all
    asynchrony (socket messages, timers, the signer's promise) enters as a
    separate event.  The embedding therefore threads one explicit [state]
    through the methods and handlers, and lets the environment choose the
    order of the events.

    The model covers the constructor, [makeRPC], [call], [connect] with
    its [onmessage] handler, and the helpers [getOrder], [getQuote],
    [getMaxQuote] and [getOrders].

    Conventions of the model:
    - a JavaScript value is a [value]; numbers are the integer-valued ones;
    - the tables [RESOLVERS], [REJECTORS], [TIMEOUTS] and
      [RPC_METHOD_ACTIONS] are finite maps on their own string keys;
    - functions passed in from outside, and promise capabilities, are
      names ([callback]); invoking one is recorded in the [trace], and
      the body of a user function is taken to return without calling
      back into the messenger;
    - [JSON.parse], [JSON.stringify], [uuid()] and the injected
      [messageSigner] are supplied by a [Host];
    - a timer fires when the environment says so ([TimerFires]); its
      delay is kept with it;
    - console output is not recorded. *)

From Stdlib Require Import ZArith Ascii.
From stdpp Require Import strings gmap list pretty.

(** ** JavaScript values *)

#[warnings="-register-all"]
Inductive value :=
| VUndef
| VNull
| VBool (b : bool)
| VNum (n : Z)
| VStr (s : string)
| VArr (items : list value)
| VObj (fields : list (string * value))
| VErr (name message : string).

(** [!!v] is [negb (truthy v)]. *)
Definition truthy (v : value) : bool :=
  match v with
  | VUndef | VNull => false
  | VBool b => b
  | VNum n => negb (n =? 0)%Z
  | VStr s => negb (String.eqb s "")
  | VArr _ | VObj _ | VErr _ _ => true
  end.

(** Reading a property of [null] or [undefined] throws a [TypeError]. *)
Definition nullish (v : value) : bool :=
  match v with
  | VUndef | VNull => true
  | _ => false
  end.

Fixpoint assoc (k : string) (fields : list (string * value)) : option value :=
  match fields with
  | [] => None
  | (k', v) :: rest => if String.eqb k k' then Some v else assoc k rest
  end.

(** [v.k] for a [v] that is not nullish, for the property names the
    messenger reads (none of them is built into strings, arrays or
    [Object.prototype]). *)
Definition get (v : value) (k : string) : value :=
  match v with
  | VObj fields => default VUndef (assoc k fields)
  | VErr _ message => if String.eqb k "message" then VStr message else VUndef
  | _ => VUndef
  end.

(** [Object.prototype.hasOwnProperty.call(v, k)]. *)
Definition hasOwnProperty (v : value) (k : string) : bool :=
  match v with
  | VObj fields => bool_decide (is_Some (assoc k fields))
  | VErr _ _ => String.eqb k "message"
  | _ => false
  end.

(** [obj[k] = v] on the field list: an existing key keeps its place. *)
Fixpoint set_field (k : string) (v : value) (fields : list (string * value))
  : list (string * value) :=
  match fields with
  | [] => [(k, v)]
  | (k', v') :: rest =>
      if String.eqb k k' then (k, v) :: rest else (k', v') :: set_field k v rest
  end.

(** [{...base, ...extra}] for field lists. *)
Definition spread (base extra : list (string * value)) : list (string * value) :=
  foldl (λ acc kv, set_field kv.1 kv.2 acc) base extra.

(** The own enumerable properties copied by [...v]. *)
Definition own_fields (v : value) : list (string * value) :=
  match v with
  | VObj fields => fields
  | _ => []
  end.

(** [String(v)], which is also the conversion to a property key. *)
Fixpoint to_str (v : value) : string :=
  match v with
  | VUndef => "undefined"
  | VNull => "null"
  | VBool true => "true"
  | VBool false => "false"
  | VNum n => pretty n
  | VStr s => s
  | VArr items =>
      (fix join (l : list value) : string :=
         match l with
         | [] => ""
         | x :: rest =>
             (if nullish x then "" else to_str x)
               +:+ match rest with [] => "" | _ => "," +:+ join rest end
         end) items
  | VObj _ => "[object Object]"
  | VErr name message =>
      if String.eqb message "" then name else name +:+ ": " +:+ message
  end.

Definition lower_ascii (c : ascii) : ascii :=
  let n := nat_of_ascii c in
  if (Nat.leb 65 n && Nat.leb n 90)%bool then ascii_of_nat (n + 32) else c.

(** [s.toLowerCase()] on the ASCII range (addresses are hexadecimal). *)
Fixpoint toLowerCase (s : string) : string :=
  match s with
  | EmptyString => EmptyString
  | String c rest => String (lower_ascii c) (toLowerCase rest)
  end.

(** ** Functions as values, promises *)

(** A function value.  [PromiseResolve p] and [PromiseReject p] are the
    two capabilities handed to the executor of promise [p]; [UserFn n] is
    a function supplied by the embedding application. *)
Inductive callback :=
| PromiseResolve (p : nat)
| PromiseReject (p : nat)
| UserFn (n : nat).

Inductive outcome :=
| Fulfilled (v : value)
| Rejected (e : value).

(** A statement either completes or throws. *)
Inductive completion (A : Type) :=
| Return (a : A)
| Throw (e : value).
Arguments Return {A} a.
Arguments Throw {A} e.

(** Where in the source a function value is invoked. *)
Inductive site :=
| AtResolver (id : string)   (* this.RESOLVERS[message.id](message.result) *)
| AtRejector (id : string)   (* this.REJECTORS[message.id](message.error) *)
| AtTimeout (id : string)    (* reject({ message, code: -1 }) in the timer *)
| AtConnect                  (* resolve / reject of the connect promise *)
| AtExecutor.                (* an executor threw: the promise rejects *)

(** What the messenger does to the outside world, oldest last. *)
Inductive effect :=
| Sent (sock : nat) (data : string)
| Invoked (at_ : site) (f : callback) (arg : value)
| Handled (method : string) (handler : nat) (message : value)
| Signing (challenge : string).

(** A timer armed by [setTimeout]: its delay and what its closure
    captured ([message.id] as a key, and [reject]). *)
Record timer := Timer {
  t_delay : Z;
  t_id : string;
  t_reject : option callback
}.

Definition TIMEOUT : Z := 12000.

(** ** The messenger and its runtime *)

Record state := State {
  (* the Messenger object *)
  address : string;
  RPC_METHOD_ACTIONS : gmap string nat;
  isAuthenticated : bool;
  RESOLVERS : gmap string callback;
  REJECTORS : gmap string callback;
  TIMEOUTS : gmap string nat;
  socket : option nat;
  (* the runtime around it *)
  timers : gmap nat timer;          (* armed, not yet fired or cleared *)
  next_timer : nat;
  next_id : nat;                    (* next promise / socket identity *)
  entropy : nat;                    (* how many uuids were drawn *)
  signing : list string;            (* challenges with the signer *)
  settled : list (nat * outcome);   (* first settlement of each promise *)
  trace : list effect
}.

Definition with_isAuthenticated (b : bool) (st : state) : state :=
  State (address st) (RPC_METHOD_ACTIONS st) b (RESOLVERS st) (REJECTORS st)
    (TIMEOUTS st) (socket st) (timers st) (next_timer st) (next_id st)
    (entropy st) (signing st) (settled st) (trace st).

Definition with_RESOLVERS (m : gmap string callback) (st : state) : state :=
  State (address st) (RPC_METHOD_ACTIONS st) (isAuthenticated st) m (REJECTORS st)
    (TIMEOUTS st) (socket st) (timers st) (next_timer st) (next_id st)
    (entropy st) (signing st) (settled st) (trace st).

Definition with_REJECTORS (m : gmap string callback) (st : state) : state :=
  State (address st) (RPC_METHOD_ACTIONS st) (isAuthenticated st) (RESOLVERS st) m
    (TIMEOUTS st) (socket st) (timers st) (next_timer st) (next_id st)
    (entropy st) (signing st) (settled st) (trace st).

Definition with_TIMEOUTS (m : gmap string nat) (st : state) : state :=
  State (address st) (RPC_METHOD_ACTIONS st) (isAuthenticated st) (RESOLVERS st)
    (REJECTORS st) m (socket st) (timers st) (next_timer st) (next_id st)
    (entropy st) (signing st) (settled st) (trace st).

Definition with_socket (s : option nat) (st : state) : state :=
  State (address st) (RPC_METHOD_ACTIONS st) (isAuthenticated st) (RESOLVERS st)
    (REJECTORS st) (TIMEOUTS st) s (timers st) (next_timer st) (next_id st)
    (entropy st) (signing st) (settled st) (trace st).

Definition with_timers (m : gmap nat timer) (st : state) : state :=
  State (address st) (RPC_METHOD_ACTIONS st) (isAuthenticated st) (RESOLVERS st)
    (REJECTORS st) (TIMEOUTS st) (socket st) m (next_timer st) (next_id st)
    (entropy st) (signing st) (settled st) (trace st).

Definition with_next_timer (n : nat) (st : state) : state :=
  State (address st) (RPC_METHOD_ACTIONS st) (isAuthenticated st) (RESOLVERS st)
    (REJECTORS st) (TIMEOUTS st) (socket st) (timers st) n (next_id st)
    (entropy st) (signing st) (settled st) (trace st).

Definition with_next_id (n : nat) (st : state) : state :=
  State (address st) (RPC_METHOD_ACTIONS st) (isAuthenticated st) (RESOLVERS st)
    (REJECTORS st) (TIMEOUTS st) (socket st) (timers st) (next_timer st) n
    (entropy st) (signing st) (settled st) (trace st).

Definition with_entropy (n : nat) (st : state) : state :=
  State (address st) (RPC_METHOD_ACTIONS st) (isAuthenticated st) (RESOLVERS st)
    (REJECTORS st) (TIMEOUTS st) (socket st) (timers st) (next_timer st)
    (next_id st) n (signing st) (settled st) (trace st).

Definition with_signing (l : list string) (st : state) : state :=
  State (address st) (RPC_METHOD_ACTIONS st) (isAuthenticated st) (RESOLVERS st)
    (REJECTORS st) (TIMEOUTS st) (socket st) (timers st) (next_timer st)
    (next_id st) (entropy st) l (settled st) (trace st).

Definition with_settled (l : list (nat * outcome)) (st : state) : state :=
  State (address st) (RPC_METHOD_ACTIONS st) (isAuthenticated st) (RESOLVERS st)
    (REJECTORS st) (TIMEOUTS st) (socket st) (timers st) (next_timer st)
    (next_id st) (entropy st) (signing st) l (trace st).

Definition with_trace (l : list effect) (st : state) : state :=
  State (address st) (RPC_METHOD_ACTIONS st) (isAuthenticated st) (RESOLVERS st)
    (REJECTORS st) (TIMEOUTS st) (socket st) (timers st) (next_timer st)
    (next_id st) (entropy st) (signing st) (settled st) l.

(** [new Messenger({ rpcActions, messageSigner, address, keyspace })]. *)
Definition constructor (rpcActions : gmap string nat) (addr : string) : state :=
  State addr rpcActions false ∅ ∅ ∅ None ∅ 0 0 0 [] [] [].

Definition emit (e : effect) (st : state) : state :=
  with_trace (e :: trace st) st.

(** When and how the promise [p] was settled, from the log of first
    settlements (newest first): its instant is the number of settlements
    before it.  [None] while [p] is pending. *)
Fixpoint settled_at (p : nat) (l : list (nat * outcome)) : option (nat * outcome) :=
  match l with
  | [] => None
  | (q, o) :: rest =>
      match settled_at p rest with
      | Some r => Some r
      | None => if Nat.eqb p q then Some (length rest, o) else None
      end
  end.

(** Settling a promise a second time has no effect. *)
Definition settle (p : nat) (o : outcome) (st : state) : state :=
  match settled_at p (settled st) with
  | Some _ => st
  | None => with_settled ((p, o) :: settled st) st
  end.

(** [f(arg)] at a place of the source. *)
Definition invoke (at_ : site) (f : callback) (arg : value) (st : state) : state :=
  let st := emit (Invoked at_ f arg) st in
  match f with
  | PromiseResolve p => settle p (Fulfilled arg) st
  | PromiseReject p => settle p (Rejected arg) st
  | UserFn _ => st
  end.

(** [typeof f === 'function'] fails for anything that is not a function:
    such an argument is [None]. *)
Definition invoke_if_function (at_ : site) (f : option callback) (arg : value)
  (st : state) : state :=
  match f with
  | Some g => invoke at_ g arg st
  | None => st
  end.

(** [clearTimeout(h)]; clearing [undefined] or a spent handle does nothing. *)
Definition clearTimeout (h : option nat) (st : state) : state :=
  match h with
  | Some n => with_timers (delete n (timers st)) st
  | None => st
  end.

(** ** Derived promises *)

(** The promises the helper methods return: a promise created with
    [new Promise], [P.then(f)], [P.catch(f)] and [Promise.all(Ps)]. *)
#[warnings="-register-all"]
Inductive promise :=
| PNew (p : nat)
| PThen (P : promise) (f : value → completion value)
| PCatch (P : promise) (f : value → completion value)
| PAll (Ps : list promise).

Definition reaction (f : value → completion value) (v : value) : outcome :=
  match f v with
  | Return w => Fulfilled w
  | Throw e => Rejected e
  end.

(** [Promise.all] rejects with the rejection that happens first; among
    reactions of the same instant the earlier element wins. *)
Fixpoint earliest_rejection (rs : list (option (nat * outcome)))
  : option (nat * value) :=
  match rs with
  | [] => None
  | r :: rest =>
      let later := earliest_rejection rest in
      match r with
      | Some (t, Rejected e) =>
          match later with
          | Some (t', e') => if Nat.ltb t' t then later else Some (t, e)
          | None => Some (t, e)
          end
      | _ => later
      end
  end.

(** The values of the inputs when all of them are fulfilled, with the
    instant of the last one. *)
Fixpoint all_fulfilled (rs : list (option (nat * outcome)))
  : option (nat * list value) :=
  match rs with
  | [] => Some (0%nat, [])
  | Some (t, Fulfilled v) :: rest =>
      match all_fulfilled rest with
      | Some (t', vs) => Some (Nat.max t t', v :: vs)
      | None => None
      end
  | _ => None
  end.

(** When and how a promise is settled, given the settlements of the
    base promises; [None] while it is pending. *)
Fixpoint resolution (l : list (nat * outcome)) (P : promise)
  : option (nat * outcome) :=
  match P with
  | PNew p => settled_at p l
  | PThen Q f =>
      match resolution l Q with
      | Some (t, Fulfilled v) => Some (t, reaction f v)
      | r => r
      end
  | PCatch Q f =>
      match resolution l Q with
      | Some (t, Rejected e) => Some (t, reaction f e)
      | r => r
      end
  | PAll Ps =>
      let rs := map (resolution l) Ps in
      match earliest_rejection rs with
      | Some (t, e) => Some (t, Rejected e)
      | None =>
          match all_fulfilled rs with
          | Some (t, vs) => Some (t, Fulfilled (VArr vs))
          | None => None
          end
      end
  end.

Definition promise_state (st : state) (P : promise) : option outcome :=
  snd <$> resolution (settled st) P.

(** ** Events of the environment *)

Inductive event :=
| Call (receiver message : value) (resolve reject : option callback)
| Message (c : nat) (data : string)   (* on the socket opened by connect [c] *)
| TimerFires (h : nat)
| SignerDone (i : nat).               (* the [i]-th challenge with the signer *)

Definition TypeError : value := VErr "TypeError" "cannot read a property of null or undefined".

(** ** The host environment *)

(** What the class takes from its surroundings: [JSON.parse] ([None]: it
    throws), [JSON.stringify], the stream of [uuid()] results, the
    injected signer ([None]: its promise never fulfils) and
    [ethers.utils.bigNumberify(v).toNumber()]. *)
Class Host := {
  JSON_parse : string → option value;
  JSON_stringify : value → string;
  uuid : nat → string;
  messageSigner : string → option string;
  toNumber : value → completion value
}.

(** ** The class *)

Section Messenger.

Context `{Host}.

Definition draw_uuid (st : state) : string * state :=
  (uuid (entropy st), with_entropy (S (entropy st)) st).

(** [static makeRPC(method, params = {}, id = uuid())]. *)
Definition makeRPC (method params id : value) (st : state) : value * state :=
  let params := match params with VUndef => VObj [] | _ => params end in
  let '(id, st) :=
    match id with
    | VUndef => let '(u, st) := draw_uuid st in (VStr u, st)
    | _ => (id, st)
    end in
  (VObj [("jsonrpc", VStr "2.0"); ("method", method);
         ("params", params); ("id", id)], st).

(** [JSON.stringify(undefined)] is [undefined]. *)
Definition stringified (v : value) : value :=
  match v with
  | VUndef => VUndef
  | _ => VStr (JSON_stringify v)
  end.

(** [call(receiver, message, resolve, reject)]. *)
Definition call (receiver message : value) (resolve reject : option callback)
  (st : state) : completion unit * state :=
  let '(u, st) := draw_uuid st in
  let messageString :=
    JSON_stringify (VObj [("sender", VStr (toLowerCase (address st)));
                          ("receiver", receiver);
                          ("message", stringified message);
                          ("id", VStr u)]) in
  match socket st with
  | None => (Throw TypeError, st)
  | Some s =>
      let st := emit (Sent s messageString) st in
      if nullish message then (Throw TypeError, st)
      else
        let id := to_str (get message "id") in
        (* Set the promise resolvers and rejectors for this call *)
        let st :=
          match resolve with
          | Some f => with_RESOLVERS (<[id := f]> (RESOLVERS st)) st
          | None => st
          end in
        let st :=
          match reject with
          | Some f => with_REJECTORS (<[id := f]> (REJECTORS st)) st
          | None => st
          end in
        (* Set a timeout for this call *)
        let h := next_timer st in
        let st := with_next_timer (S h) st in
        let st := with_timers (<[h := Timer TIMEOUT id reject]> (timers st)) st in
        (Return (), with_TIMEOUTS (<[id := h]> (TIMEOUTS st)) st)
  end.

(** The body of the timer armed by [call]. *)
Definition timeout_error (id : string) : value :=
  VObj [("message", VStr ("Request timed out. [" +:+ id +:+ "]"));
        ("code", VNum (-1))].

Definition fire (h : nat) (st : state) : state :=
  match timers st !! h with
  | None => st
  | Some t =>
      let st := with_timers (delete h (timers st)) st in
      invoke_if_function (AtTimeout (t_id t)) (t_reject t)
        (timeout_error (t_id t)) st
  end.

(** [connect()]: [this.socket = new WebSocket(...)] and the promise
    whose [resolve] and [reject] the [onmessage] handler holds; both carry
    the identity [c].  The other handlers [connect] installs ([onopen]
    with the liveness probe, [onclose] with the reconnect, [onerror]) are
    outside this development. *)
Definition connect (st : state) : nat * state :=
  let c := next_id st in
  (c, with_socket (Some c) (with_next_id (S c) st)).

(** The [try] block of the handler: [Some message] when both layers
    parse and neither [payload] nor [message] is falsy. *)
Definition decode (data : string) : option value :=
  match JSON_parse data with
  | None => None
  | Some payload =>
      if nullish payload then None
      else
        let inner := get payload "message" in
        if truthy inner then
          match JSON_parse (to_str inner) with
          | None => None
          | Some message =>
              if (truthy payload && truthy message)%bool then Some message
              else None
          end
        else None
  end.

(** The handler once authenticated, from [if (message.method)] on. *)
Definition dispatch (message : value) (st : state) : state :=
  if truthy (get message "method") then
    (* Another peer is invoking a method. *)
    let method := to_str (get message "method") in
    match RPC_METHOD_ACTIONS st !! method with
    | Some handler => emit (Handled method handler message) st
    | None => st
    end
  else if truthy (get message "id") then
    (* We have received a response from a method call. *)
    let id := to_str (get message "id") in
    let isError := hasOwnProperty message "error" in
    let st :=
      if (negb isError && truthy (get message "result"))%bool then
        invoke_if_function (AtResolver id) (RESOLVERS st !! id)
          (get message "result") st
      else if isError then
        invoke_if_function (AtRejector id) (REJECTORS st !! id)
          (get message "error") st
      else st in
    (* Call lifecycle finished; tear down resolver, rejector, and timeout *)
    let st := with_RESOLVERS (delete id (RESOLVERS st)) st in
    let st := with_REJECTORS (delete id (REJECTORS st)) st in
    clearTimeout (TIMEOUTS st !! id) st
  else st.

(** [this.socket.onmessage] as installed by the connect invocation [c]. *)
Definition onmessage (c : nat) (data : string) (st : state) : state :=
  if negb (isAuthenticated st) then
    if String.eqb data "ok" then
      invoke AtConnect (PromiseResolve c) (VStr data)
        (with_isAuthenticated true st)
    else if String.eqb data "not authorized" then
      invoke AtConnect (PromiseReject c)
        (VErr "Error" "Address is not authorized.") st
    else
      (* We have been issued a challenge. *)
      emit (Signing data) (with_signing (signing st ++ [data]) st)
  else
    match decode data with
    | Some message => dispatch message st
    | None => st
    end.

(** [signature => { this.socket.send(signature) }], run when the
    signer's promise for the [i]-th pending challenge fulfils. *)
Definition signed (i : nat) (st : state) : state :=
  match signing st !! i with
  | None => st
  | Some challenge =>
      let st := with_signing (delete i (signing st)) st in
      match messageSigner challenge, socket st with
      | Some signature, Some s => emit (Sent s signature) st
      | _, _ => st
      end
  end.

Definition step (st : state) (ev : event) : state :=
  match ev with
  | Call receiver message resolve reject =>
      snd (call receiver message resolve reject st)
  | Message c data => onmessage c data st
  | TimerFires h => fire h st
  | SignerDone i => signed i st
  end.

Definition run (st : state) (evs : list event) : state := foldl step st evs.

(** [new Promise((res, rej) => this.call(receiver, payload, res, rej))]:
    an exception of the executor rejects the promise. *)
Definition promised_call (receiver payload : value) (st : state) : nat * state :=
  let p := next_id st in
  let st := with_next_id (S p) st in
  match call receiver payload (Some (PromiseResolve p)) (Some (PromiseReject p)) st with
  | (Return _, st) => (p, st)
  | (Throw e, st) => (p, invoke AtExecutor (PromiseReject p) e st)
  end.

Definition BadArgumentsError : value :=
  VErr "Error" "bad arguments passed to getOrder".

(** [amount ? String(amount) : null]. *)
Definition amount_string (amount : value) : value :=
  if truthy amount then VStr (to_str amount) else VNull.

(** [order => ({ ...order, v: order.v ? bigNumberify(order.v).toNumber() : order.v })]. *)
Definition decode_v (order : value) : completion value :=
  if nullish order then Throw TypeError
  else
    let v := get order "v" in
    if truthy v then
      match toNumber v with
      | Return n => Return (VObj (spread (own_fields order) [("v", n)]))
      | Throw e => Throw e
      end
    else Return (VObj (spread (own_fields order) [("v", v)])).

(** [getOrder(makerAddress, params)]. *)
Definition getOrder (makerAddress params : value) (st : state)
  : completion promise * state :=
  if nullish params then (Throw TypeError, st)
  else
    let makerAmount := get params "makerAmount" in
    let takerAmount := get params "takerAmount" in
    let makerToken := get params "makerToken" in
    let takerToken := get params "takerToken" in
    if (negb (truthy makerAmount) && negb (truthy takerAmount))%bool
    then (Throw BadArgumentsError, st)
    else if (truthy makerAmount && truthy takerAmount)%bool
    then (Throw BadArgumentsError, st)
    else if (negb (truthy takerToken) || negb (truthy makerToken))%bool
    then (Throw BadArgumentsError, st)
    else
      let '(payload, st) :=
        makeRPC (VStr "getOrder")
          (VObj [("makerToken", makerToken);
                 ("takerToken", takerToken);
                 ("takerAddress", VStr (toLowerCase (address st)));
                 ("makerAmount", amount_string makerAmount);
                 ("takerAmount", amount_string takerAmount)])
          VUndef st in
      let '(p, st) := promised_call makerAddress payload st in
      (Return (PThen (PNew p) decode_v), st).

(** [getQuote(makerAddress, params)]. *)
Definition getQuote (makerAddress params : value) (st : state)
  : completion promise * state :=
  if nullish params then (Throw TypeError, st)
  else
    let makerAmount := get params "makerAmount" in
    let takerAmount := get params "takerAmount" in
    let makerToken := get params "makerToken" in
    let takerToken := get params "takerToken" in
    if (negb (truthy makerAmount) && negb (truthy takerAmount))%bool
    then (Throw BadArgumentsError, st)
    else if (truthy makerAmount && truthy takerAmount)%bool
    then (Throw BadArgumentsError, st)
    else if (negb (truthy takerToken) || negb (truthy makerToken))%bool
    then (Throw BadArgumentsError, st)
    else
      let '(payload, st) :=
        makeRPC (VStr "getQuote")
          (VObj [("makerToken", makerToken);
                 ("takerToken", takerToken);
                 ("makerAmount", amount_string makerAmount);
                 ("takerAmount", amount_string takerAmount)])
          VUndef st in
      let '(p, st) := promised_call makerAddress payload st in
      (Return (PNew p), st).

(** [getMaxQuote(makerAddress, params)]. *)
Definition getMaxQuote (makerAddress params : value) (st : state)
  : completion promise * state :=
  if nullish params then (Throw TypeError, st)
  else
    let makerToken := get params "makerToken" in
    let takerToken := get params "takerToken" in
    if (negb (truthy takerToken) || negb (truthy makerToken))%bool
    then (Throw BadArgumentsError, st)
    else
      let '(payload, st) :=
        makeRPC (VStr "getMaxQuote")
          (VObj [("makerToken", makerToken); ("takerToken", takerToken)])
          VUndef st in
      let '(p, st) := promised_call makerAddress payload st in
      (Return (PNew p), st).

(** The callback of [intents.map] in [getOrders], for one intent. *)
Definition order_request (params intent : value) (st : state)
  : completion promise * state :=
  if nullish intent then (Throw TypeError, st)
  else
    let makerAddress := get intent "makerAddress" in
    let makerToken := get intent "makerToken" in
    let takerToken := get intent "takerToken" in
    let '(payload, st) :=
      makeRPC (VStr "getOrder")
        (VObj (spread [("makerToken", makerToken);
                       ("takerToken", takerToken);
                       ("takerAddress", VStr (toLowerCase (address st)))]
                      (own_fields params)))
        VUndef st in
    let '(p, st) := promised_call makerAddress payload st in
    (* .catch(e => e) *)
    (Return (PCatch (PNew p) Return), st).

(** [intents.map(...)]: left to right, stopping at an exception. *)
Fixpoint order_requests (params : value) (intents : list value) (st : state)
  : completion (list promise) * state :=
  match intents with
  | [] => (Return [], st)
  | intent :: rest =>
      match order_request params intent st with
      | (Throw e, st) => (Throw e, st)
      | (Return P, st) =>
          match order_requests params rest st with
          | (Throw e, st) => (Throw e, st)
          | (Return Ps, st) => (Return (P :: Ps), st)
          end
      end
  end.

(** [getOrders(intents, params)]. *)
Definition getOrders (intents params : value) (st : state)
  : completion promise * state :=
  if nullish params then (Throw TypeError, st)
  else
    let makerAmount := get params "makerAmount" in
    let takerAmount := get params "takerAmount" in
    match intents with
    | VArr items =>
        if negb (truthy makerAmount || truthy takerAmount) then
          (Throw (VErr "Error" "bad arguments passed to getOrders"), st)
        else
          match order_requests params items st with
          | (Throw e, st) => (Throw e, st)
          | (Return Ps, st) => (Return (PAll Ps), st)
          end
    | _ => (Throw (VErr "Error" "bad arguments passed to getOrders"), st)
    end.

End Messenger.

(** ** Vocabulary of the properties *)

(** The key under which [call] files a request and under which the
    handler looks a response up. *)
Definition id_of (message : value) : string := to_str (get message "id").

(** An invocation of a resolver or a rejector, by a response or by the
    timer. *)
Definition settling (e : effect) : bool :=
  match e with
  | Invoked (AtResolver _) _ _ | Invoked (AtRejector _) _ _
  | Invoked (AtTimeout _) _ _ => true
  | _ => false
  end.

(** ... for the call filed under [id]. *)
Definition fired_at (id : string) (e : effect) : bool :=
  match e with
  | Invoked (AtResolver k) _ _ | Invoked (AtRejector k) _ _
  | Invoked (AtTimeout k) _ _ => String.eqb k id
  | _ => false
  end.

Definition firings (id : string) (st : state) : list effect :=
  List.filter (fired_at id) (trace st).

(** Inbound traffic handled as RPC: a peer's method, or a response. *)
Definition rpc_effect (e : effect) : bool :=
  match e with
  | Handled _ _ _ => true
  | _ => settling e
  end.

(** The bookkeeping of pending calls. *)
Definition pending (st : state)
  : gmap string callback * gmap string callback * gmap string nat * gmap nat timer :=
  (RESOLVERS st, REJECTORS st, TIMEOUTS st, timers st).







(** An event that files no new call under [id]. *)
Definition other_call (id : string) (ev : event) : Prop :=
  match ev with
  | Call _ message _ _ => id_of message ≠ id
  | _ => True
  end.


(** An inbound message other than ["ok"], or the signer finishing. *)
Definition not_ok (ev : event) : Prop :=
  match ev with
  | Message _ data => data ≠ "ok"
  | SignerDone _ => True
  | _ => False
  end.

(** [P.catch(e => e)] on the promise created for one sub-call. *)
Definition caught (p : nat) : promise := PCatch (PNew p) Return.

(** The request [getOrders] builds for one intent, and the text that
    [call] puts on the wire for it when [e] uuids have been drawn. *)
Definition order_payload (params intent : value) (taker id : string) : value :=
  VObj [("jsonrpc", VStr "2.0"); ("method", VStr "getOrder");
        ("params",
         VObj (spread [("makerToken", get intent "makerToken");
                       ("takerToken", get intent "takerToken");
                       ("takerAddress", VStr taker)]
                      (own_fields params)));
        ("id", VStr id)].

Definition order_text `{Host} (params intent : value) (addr : string) (e : nat)
  : string :=
  JSON_stringify
    (VObj [("sender", VStr (toLowerCase addr));
           ("receiver", get intent "makerAddress");
           ("message",
            VStr (JSON_stringify
                    (order_payload params intent (toLowerCase addr) (uuid e))));
           ("id", VStr (uuid (S e)))]).

(** The value a settled promise carries. *)
Definition carried (o : outcome) : value :=
  match o with
  | Fulfilled v => v
  | Rejected e => e
  end.

(** ** A concrete host, for examples *)

Definition dquote : ascii := ascii_of_nat 34.
Definition backslash : ascii := ascii_of_nat 92.

Fixpoint escape (s : string) : string :=
  match s with
  | EmptyString => EmptyString
  | String c rest =>
      if (Ascii.eqb c dquote || Ascii.eqb c backslash)%bool
      then String backslash (String c (escape rest))
      else String c (escape rest)
  end.

Definition quoted (s : string) : string :=
  String dquote (escape s +:+ String dquote EmptyString).

(** [JSON.stringify] on values without control characters. *)
Fixpoint serialize (v : value) : string :=
  match v with
  | VUndef | VNull => "null"
  | VBool true => "true"
  | VBool false => "false"
  | VNum n => pretty n
  | VStr s => quoted s
  | VArr items =>
      "[" +:+ String.concat ","
        ((fix each (l : list value) : list string :=
            match l with
            | [] => []
            | x :: rest => serialize x :: each rest
            end) items) +:+ "]"
  | VObj fields =>
      "{" +:+ String.concat ","
        ((fix each (l : list (string * value)) : list string :=
            match l with
            | [] => []
            | (k, VUndef) :: rest => each rest
            | (k, x) :: rest => (quoted k +:+ ":" +:+ serialize x) :: each rest
            end) fields) +:+ "}"
  | VErr _ _ => "{}"
  end.

(** The envelope a peer puts around an RPC message. *)
Definition envelope (message : value) : value :=
  VObj [("message", VStr (serialize message))].

Definition wire (message : value) : string := serialize (envelope message).

Definition response_result : value := VObj [("id", VStr "a"); ("result", VStr "r")].
Definition response_zero : value := VObj [("id", VStr "a"); ("result", VNum 0)].
Definition response_bare : value := VObj [("id", VStr "a")].
Definition response_error : value :=
  VObj [("id", VStr "a"); ("error", VObj [("code", VNum 7)])].
Definition response_unknown : value := VObj [("id", VStr "z"); ("result", VStr "r")].
Definition response_order : value :=
  VObj [("id", VStr "uuid-2"); ("result", VStr "order")].
Definition ping : value := VObj [("method", VStr "ping"); ("params", VObj [])].
Definition pong : value := VObj [("method", VStr "pong"); ("params", VObj [])].
Definition empty_method : value :=
  VObj [("method", VStr ""); ("id", VStr "a"); ("result", VStr "r")].

Definition sample_messages : list value :=
  [response_result; response_zero; response_bare; response_error;
   response_unknown; response_order; ping; pong; empty_method].

(** [JSON.parse] on the texts of the sample messages and of their
    envelopes; every other text is refused. *)
Definition sample_parse (text : string) : option value :=
  List.find (λ v, String.eqb (serialize v) text)
    (sample_messages ++ map envelope sample_messages).

Definition sample_host : Host := {|
  JSON_parse := sample_parse;
  JSON_stringify := serialize;
  uuid := λ n, "uuid-" +:+ pretty n;
  messageSigner := λ challenge,
    if String.eqb challenge "xyz" then Some "sig1" else None;
  toNumber := λ v,
    match v with
    | VNum n => Return (VNum n)
    | _ => Throw (VErr "Error" "invalid BigNumber value")
    end
|}.

(** A messenger that serves ["ping"], after [connect()]. *)
Definition connected : state :=
  (connect (constructor {["ping" := 7%nat]} "0xAbC")).2.

(** ... and after the server's ["ok"]. *)
Definition authenticated : state :=
  onmessage (H := sample_host) 0 "ok" connected.

Definition request_a : value :=
  VObj [("jsonrpc", VStr "2.0"); ("method", VStr "getOrder");
        ("params", VObj []); ("id", VStr "a")].

(** [call(receiver, request_a, resolve, reject)] with two user functions. *)
Definition calling_a : event :=
  Call (VStr "0xmaker") request_a (Some (UserFn 1)) (Some (UserFn 2)).

Definition awaiting_a : state := step (H := sample_host) authenticated calling_a.

Definition both_amounts : value :=
  VObj [("makerAmount", VNum 1); ("takerAmount", VNum 2);
        ("makerToken", VStr "0xaa"); ("takerToken", VStr "0xbb")].

Definition maker_amount : value :=
  VObj [("makerAmount", VNum 1);
        ("makerToken", VStr "0xaa"); ("takerToken", VStr "0xbb")].

Definition two_intents : list value :=
  [VObj [("makerAddress", VStr "0xm1"); ("makerToken", VStr "0xaa");
         ("takerToken", VStr "0xbb")];
   VObj [("makerAddress", VStr "0xm2"); ("makerToken", VStr "0xaa");
         ("takerToken", VStr "0xbb")]].
(** ** The indexer helpers *)

Section Indexer.

Context `{Host}.

(** [INDEXER_ADDRESS] of [../constants]. *)
Variable INDEXER_ADDRESS : string.

(** [findIntents(makerTokens, takerTokens, role = 'maker')]. *)
Definition findIntents (makerTokens takerTokens role : value) (st : state)
  : completion promise * state :=
  let role := match role with VUndef => VStr "maker" | _ => role end in
  if (negb (truthy makerTokens) || negb (truthy takerTokens))%bool
  then (Throw (VErr "Error" "missing arguments makerTokens or takerTokens"), st)
  else
    let '(payload, st) :=
      makeRPC (VStr "findIntents")
        (VObj [("makerTokens", makerTokens);
               ("takerTokens", takerTokens);
               ("role", role)])
        VUndef st in
    let '(p, st) := promised_call (VStr INDEXER_ADDRESS) payload st in
    (Return (PNew p), st).

(** [getIntents(address)]. *)
Definition getIntents (addr : value) (st : state) : promise * state :=
  let '(payload, st) :=
    makeRPC (VStr "getIntents") (VObj [("address", addr)]) VUndef st in
  let '(p, st) := promised_call (VStr INDEXER_ADDRESS) payload st in
  (PNew p, st).

(** [setIntents(intents)]. *)
Definition setIntents (intents : value) (st : state) : promise * state :=
  let '(payload, st) :=
    makeRPC (VStr "setIntents")
      (VObj [("address", VStr (toLowerCase (address st)));
             ("intents", intents)])
      VUndef st in
  let '(p, st) := promised_call (VStr INDEXER_ADDRESS) payload st in
  (PNew p, st).

End Indexer.

(** ** The life of a connection *)

(** The handlers [connect] installs besides [onmessage], and
    [disconnect].  They work on fields of the socket object, on interval
    and reconnect timers, and on the messenger; a [world] puts these
    around the [state] of the messenger.  Handles of intervals and of
    reconnect timers are kept apart from those of the timers of calls:
    no handle of one kind is ever given to the other. *)

(** The fields the handlers keep on a socket, and the [reconnect]
    argument its handlers have captured. *)
Record link := Link {
  isAlive : option bool;       (* [None]: not yet assigned *)
  interval : option nat;
  listening : bool;            (* the 'pong' listener has been added *)
  reconnect : bool
}.

(** What the handlers ask of a socket. *)
Inductive signal :=
| Ping (sock : nat)
| Closing (sock : nat) (code : option Z).

Record world := World {
  messenger : state;
  links : gmap nat link;
  probes : gmap nat nat;       (* armed intervals: handle, socket *)
  retries : gset nat;          (* armed reconnect timers *)
  next_handle : nat;
  signals : list signal        (* oldest last *)
}.

Definition with_messenger (st : state) (w : world) : world :=
  World st (links w) (probes w) (retries w) (next_handle w) (signals w).

Definition with_links (m : gmap nat link) (w : world) : world :=
  World (messenger w) m (probes w) (retries w) (next_handle w) (signals w).

Definition with_probes (m : gmap nat nat) (w : world) : world :=
  World (messenger w) (links w) m (retries w) (next_handle w) (signals w).

Definition with_retries (s : gset nat) (w : world) : world :=
  World (messenger w) (links w) (probes w) s (next_handle w) (signals w).

Definition with_next_handle (n : nat) (w : world) : world :=
  World (messenger w) (links w) (probes w) (retries w) n (signals w).

Definition ask (s : signal) (w : world) : world :=
  World (messenger w) (links w) (probes w) (retries w) (next_handle w)
    (s :: signals w).

Definition boot (st : state) : world := World st ∅ ∅ ∅ 0 [].

(** The events of a connection, around those of the messenger. *)
Inductive happening :=
| Inner (ev : event)
| Opens (c : nat)
| Pongs (c : nat)
| Ticks (h : nat)
| Closes (c : nat)
| Retries (h : nat).

Section Lifecycle.

Context `{Host}.

(** Whether the transport has [ping] (under Node it has, in a browser
    it has not). *)
Variable has_ping : bool.

(** [connect(reconnect = true)], with the socket it creates. *)
Definition dial (again : bool) (w : world) : nat * world :=
  let '(c, st) := connect (messenger w) in
  (c, with_links (<[c := Link None None false again]> (links w))
        (with_messenger st w)).

(** [this.socket.onopen = function healthCheck() { ... }]. *)
Definition onopen (c : nat) (w : world) : world :=
  match links w !! c with
  | None => w
  | Some l =>
      if has_ping then
        let h := next_handle w in
        with_probes (<[h := c]> (probes w))
          (with_next_handle (S h)
             (with_links
                (<[c := Link (Some true) (Some h) true (reconnect l)]> (links w))
                w))
      else
        with_links
          (<[c := Link (Some true) (interval l) (listening l) (reconnect l)]>
             (links w)) w
  end.

(** The ['pong'] listener: [this.isAlive = true]. *)
Definition onpong (c : nat) (w : world) : world :=
  match links w !! c with
  | Some l =>
      if listening l then
        with_links
          (<[c := Link (Some true) (interval l) (listening l) (reconnect l)]>
             (links w)) w
      else w
  | None => w
  end.

(** The body of the interval: close a socket that has not answered the
    last ping, then ping again. *)
Definition ontick (h : nat) (w : world) : world :=
  match probes w !! h with
  | None => w
  | Some c =>
      match links w !! c with
      | None => w
      | Some l =>
          let w :=
            match isAlive l with
            | Some false => ask (Closing c None) w
            | _ => w
            end in
          ask (Ping c)
            (with_links
               (<[c := Link (Some false) (interval l) (listening l) (reconnect l)]>
                  (links w)) w)
      end
  end.

(** [clearInterval(handle)]. *)
Definition clearInterval (handle : option nat) (w : world) : world :=
  match handle with
  | Some h => with_probes (delete h (probes w)) w
  | None => w
  end.

(** [this.socket.onclose], as installed by the connect invocation [c]:
    the interval it clears is the one of the messenger's current
    socket. *)
Definition onclose (c : nat) (w : world) : world :=
  let w := with_messenger (with_isAuthenticated false (messenger w)) w in
  let w :=
    match socket (messenger w) with
    | Some s => clearInterval (links w !! s ≫= interval) w
    | None => w
    end in
  match links w !! c with
  | Some l =>
      if reconnect l then
        let h := next_handle w in
        with_retries ({[h]} ∪ retries w) (with_next_handle (S h) w)
      else w
  | None => w
  end.

(** The timer armed by [onclose]: [this.connect()]. *)
Definition onretry (h : nat) (w : world) : world :=
  if bool_decide (h ∈ retries w) then
    snd (dial true (with_retries (retries w ∖ {[h]}) w))
  else w.

(** [disconnect()]: [this.socket.close(1000)]. *)
Definition disconnect (w : world) : completion unit * world :=
  match socket (messenger w) with
  | Some s => (Return (), ask (Closing s (Some 1000%Z)) w)
  | None => (Throw TypeError, w)
  end.

Definition occur (w : world) (hp : happening) : world :=
  match hp with
  | Inner ev => with_messenger (step (messenger w) ev) w
  | Opens c => onopen c w
  | Pongs c => onpong c w
  | Ticks h => ontick h w
  | Closes c => onclose c w
  | Retries h => onretry h w
  end.

Definition elapse (w : world) (hps : list happening) : world :=
  foldl occur w hps.

End Lifecycle.

(** ** Vocabulary of the further properties *)

(** Nothing filed under [id] could invoke a function: no resolver, no
    rejector, and its armed timers hold no [reject]. *)
Definition mute (id : string) (st : state) : Prop :=
  RESOLVERS st !! id = None
  ∧ REJECTORS st !! id = None
  ∧ ∀ h t, timers st !! h = Some t → t_id t = id → t_reject t = None.

(** The bookkeeping is in order: whatever is filed or armed under an id
    has a handle in [TIMEOUTS], and every handle has been given out. *)
Definition tidy (st : state) : Prop :=
  (∀ id, is_Some (RESOLVERS st !! id) → is_Some (TIMEOUTS st !! id))
  ∧ (∀ id, is_Some (REJECTORS st !! id) → is_Some (TIMEOUTS st !! id))
  ∧ (∀ h t, timers st !! h = Some t →
       h < next_timer st ∧ is_Some (TIMEOUTS st !! t_id t))
  ∧ (∀ id h, TIMEOUTS st !! id = Some h → h < next_timer st).

(** What has been put on a socket. *)
Definition is_sent (e : effect) : bool :=
  match e with
  | Sent _ _ => true
  | _ => false
  end.

Definition sends (st : state) : list effect := List.filter is_sent (trace st).

(** The text [call] sends for [message] when [e] uuids have been drawn. *)
Definition envelope_text `{Host} (addr : string) (receiver message : value)
  (e : nat) : string :=
  JSON_stringify
    (VObj [("sender", VStr (toLowerCase addr));
           ("receiver", receiver);
           ("message", stringified message);
           ("id", VStr (uuid e))]).

(** The request [makeRPC] builds under the [e]-th uuid. *)
Definition request `{Host} (method : string) (params : value) (e : nat) : value :=
  VObj [("jsonrpc", VStr "2.0"); ("method", VStr method);
        ("params", params); ("id", VStr (uuid e))].

(** A response as the handler classifies it, for the call filed under
    [id]. *)
Definition answers (id : string) (message : value) : Prop :=
  truthy (get message "method") = false
  ∧ truthy (get message "id") = true
  ∧ id_of message = id.

(** How a response settles a promise. *)
Definition verdict (message : value) : option outcome :=
  if hasOwnProperty message "error" then Some (Rejected (get message "error"))
  else if truthy (get message "result") then Some (Fulfilled (get message "result"))
  else None.

(** The capabilities of the pending promise [p] are filed under [id]. *)
Definition filed (id : string) (p : nat) (st : state) : Prop :=
  RESOLVERS st !! id = Some (PromiseResolve p)
  ∧ REJECTORS st !! id = Some (PromiseReject p)
  ∧ settled_at p (settled st) = None.

(** What a helper does when it asks [receiver] for [method] with
    [params] on the socket [s]: it returns the next promise, sends one
    envelope with the request under the next uuid, and files the
    capabilities of the promise, with a timer, under that uuid. *)
Definition asks `{Host} (st : state) (s : nat) (receiver : value)
  (method : string) (params : value) (p : nat) (st' : state) : Prop :=
  p = next_id st
  ∧ trace st'
    = Sent s (envelope_text (address st) receiver
                (request method params (entropy st)) (S (entropy st)))
      :: trace st
  ∧ RESOLVERS st' = <[uuid (entropy st) := PromiseResolve p]> (RESOLVERS st)
  ∧ REJECTORS st' = <[uuid (entropy st) := PromiseReject p]> (REJECTORS st)
  ∧ TIMEOUTS st' = <[uuid (entropy st) := next_timer st]> (TIMEOUTS st)
  ∧ timers st'
    = <[next_timer st := Timer TIMEOUT (uuid (entropy st))
                           (Some (PromiseReject p))]> (timers st)
  ∧ settled st' = settled st
  ∧ isAuthenticated st' = isAuthenticated st.

(** ** Further examples *)

(** The authenticated messenger after two uuids have been drawn, so
    that its next request goes out under ["uuid-2"]. *)
Definition seasoned : state := with_entropy 2 authenticated.

(** A world around a messenger that has just dialled, with reconnect. *)
Definition dialled : world :=
  (dial true (boot (constructor {["ping" := 7%nat]} "0xAbC"))).2.

(** ... whose socket has opened, on a transport with [ping]. *)
Definition opened : world := onopen true 0 dialled.

(** ... and which has dialled and opened a second socket meanwhile. *)
Definition redialled : world := onopen true 1 (dial true opened).2.


(** * Properties *)

Section Properties.

Context `{Host}.

Ltac open_handlers :=
  unfold step, onmessage, dispatch, fire, signed, call, draw_uuid,
    invoke_if_function, invoke, settle, clearTimeout, emit, firings, id_of in *.


(** *** Calls that can settle no more *)



(** *** What an event leaves alone *)






(** *** The response path *)

(** What the handler does to the bookkeeping and to the trace when an
    authenticated message is classified as a response. *)
Lemma response_path c data message st :
  isAuthenticated st = true →
  decode data = Some message →
  truthy (get message "method") = false →
  truthy (get message "id") = true →
  let id := id_of message in
  let st' := onmessage c data st in
  RESOLVERS st' = delete id (RESOLVERS st)
  ∧ REJECTORS st' = delete id (REJECTORS st)
  ∧ TIMEOUTS st' = TIMEOUTS st
  ∧ timers st' = match TIMEOUTS st !! id with
                 | Some h => delete h (timers st)
                 | None => timers st
                 end
  ∧ trace st' =
      (if (negb (hasOwnProperty message "error") && truthy (get message "result"))%bool
       then match RESOLVERS st !! id with
            | Some f => [Invoked (AtResolver id) f (get message "result")]
            | None => []
            end
       else if hasOwnProperty message "error"
       then match REJECTORS st !! id with
            | Some f => [Invoked (AtRejector id) f (get message "error")]
            | None => []
            end
       else []) ++ trace st.
Proof.
  intros Hauth Hdec Hmethod Hid. simpl.
  unfold onmessage. rewrite Hauth, Hdec. simpl.
  unfold dispatch. rewrite Hmethod, Hid. fold (id_of message).
  open_handlers.
  repeat case_match; simpl in *; simplify_eq; done.
Qed.



(** A message that is not handled as a response touches neither the
    bookkeeping nor any callback of a call. *)
Lemma onmessage_elsewhere c data st :
  isAuthenticated st = false
  ∨ decode data = None
  ∨ (∃ message, decode data = Some message
       ∧ (truthy (get message "method") = true
          ∨ truthy (get message "id") = false)) →
  pending (onmessage c data st) = pending st
  ∧ next_timer (onmessage c data st) = next_timer st
  ∧ List.filter settling (trace (onmessage c data st))
    = List.filter settling (trace st)
  ∧ ∀ id, firings id (onmessage c data st) = firings id st.
Proof.
  intros [Hauth | [Hdec | (message & Hdec & Hcase)]]; unfold onmessage.
  - rewrite Hauth. simpl. open_handlers.
    repeat case_match; simpl in *; simplify_eq; done.
  - destruct (isAuthenticated st); simpl.
    + by rewrite Hdec.
    + open_handlers. repeat case_match; simpl in *; simplify_eq; done.
  - destruct (isAuthenticated st); simpl.
    + rewrite Hdec. unfold dispatch.
      destruct Hcase as [-> | Hid].
      * by destruct (RPC_METHOD_ACTIONS st !! _).
      * rewrite Hid. destruct (truthy (get message "method")); [|done].
        by destruct (RPC_METHOD_ACTIONS st !! _).
    + open_handlers. repeat case_match; simpl in *; simplify_eq; done.
Qed.

Lemma onmessage_next_timer c data st :
  next_timer (onmessage c data st) = next_timer st.
Proof.
  open_handlers. repeat case_match; simpl in *; simplify_eq; done.
Qed.

(** How an inbound message is classified. *)
Lemma onmessage_cases data st :
  (isAuthenticated st = false
   ∨ decode data = None
   ∨ (∃ message, decode data = Some message
        ∧ (truthy (get message "method") = true
           ∨ truthy (get message "id") = false)))
  ∨ (∃ message, isAuthenticated st = true ∧ decode data = Some message
       ∧ truthy (get message "method") = false
       ∧ truthy (get message "id") = true).
Proof.
  destruct (isAuthenticated st); [|by left; left].
  destruct (decode data) as [message|]; [|by left; right; left].
  destruct (truthy (get message "method")) eqn:Hm;
    [left; right; right; exists message; by auto|].
  destruct (truthy (get message "id")) eqn:Hi;
    [right; exists message; by auto|].
  left; right; right; exists message; by auto.
Qed.





(** ** C3: a matching response settles the call *)


(** ** C4: responses that settle nothing *)


(** ** C7: a peer invokes a method *)


(** ** C10: a response without error and with a falsy result *)



(** *** The timer of a call *)

(** X1: when the timer armed by a call fires, the [reject] the call was
    given, if it is a function, receives the timeout error; the tables
    still hold what the call filed. *)
Lemma timer_delivers_timeout_error receiver message resolve reject st st1 :
  call receiver message resolve reject st = (Return (), st1) →
  let id := id_of message in
  let st2 := fire (next_timer st) st1 in
  trace st2 = match reject with
              | Some f => Invoked (AtTimeout id) f (timeout_error id) :: trace st1
              | None => trace st1
              end
  ∧ get (timeout_error id) "code" = VNum (-1)
  ∧ timers st2 !! next_timer st = None
  ∧ RESOLVERS st2 = RESOLVERS st1
  ∧ REJECTORS st2 = REJECTORS st1
  ∧ TIMEOUTS st2 = TIMEOUTS st1.
Proof.
  intros Hcall. simpl. unfold fire.
  assert (Ht : timers st1 !! next_timer st
               = Some (Timer TIMEOUT (id_of message) reject)).
  { unfold call, draw_uuid, id_of in *.
    repeat case_match; simplify_eq; simpl; apply lookup_insert_eq. }
  rewrite Ht. simpl.
  destruct reject as [[p|p|n]|]; unfold invoke_if_function, invoke, settle, emit;
    simpl; repeat case_match; simpl; rewrite ?lookup_delete_eq; done.
Qed.

(** ** C1: one settlement per call *)





(** ** C5: the challenge and the server's "ok" *)

Lemma settle_pending p o st :
  settled_at p (settled st) = None →
  settled_at p (settled (settle p o st)) = Some (length (settled st), o).
Proof.
  intros Hp. unfold settle. rewrite Hp. simpl. rewrite Hp.
  by rewrite Nat.eqb_refl.
Qed.

Lemma invoke_resolve_pending at_ p v st :
  settled_at p (settled st) = None →
  invoke at_ (PromiseResolve p) v st
  = with_settled ((p, Fulfilled v) :: settled st)
      (emit (Invoked at_ (PromiseResolve p) v) st).
Proof. intros Hp. unfold invoke, settle. simpl. by rewrite Hp. Qed.

Lemma invoke_reject_pending at_ p e st :
  settled_at p (settled st) = None →
  invoke at_ (PromiseReject p) e st
  = with_settled ((p, Rejected e) :: settled st)
      (emit (Invoked at_ (PromiseReject p) e) st).
Proof. intros Hp. unfold invoke, settle. simpl. by rewrite Hp. Qed.

(** A settled promise stays as it is. *)
Lemma step_keeps_settlement p r st ev :
  settled_at p (settled st) = Some r →
  settled_at p (settled (step st ev)) = Some r.
Proof.
  intros Hp. destruct ev; open_handlers;
    repeat case_match; simpl in *; simplify_eq; try done.
  all: by rewrite Hp.
Qed.

(** C5: before authentication, an inbound text other than ["ok"] and
    ["not authorized"] is handed to the signer, and when the signer
    answers, exactly its signature is sent on the connection; the ["ok"]
    that follows sets the authenticated flag and fulfils the promise of
    [connect] with ["ok"], after which inbound messages are handled as
    RPC traffic. *)
Theorem authentication_handshake c data signature st :
  isAuthenticated st = false →
  socket st = Some c →
  promise_state st (PNew c) = None →
  data ≠ "ok" → data ≠ "not authorized" →
  messageSigner data = Some signature →
  let st1 := onmessage c data st in
  let st2 := signed (length (signing st)) st1 in
  let st3 := onmessage c "ok" st2 in
  trace st1 = Signing data :: trace st
  ∧ isAuthenticated st1 = false
  ∧ trace st2 = Sent c signature :: trace st1
  ∧ isAuthenticated st2 = false
  ∧ trace st3 = Invoked AtConnect (PromiseResolve c) (VStr "ok") :: trace st2
  ∧ isAuthenticated st3 = true
  ∧ promise_state st3 (PNew c) = Some (Fulfilled (VStr "ok"))
  ∧ ∀ later, onmessage c later st3
      = match decode later with
        | Some message => dispatch message st3
        | None => st3
        end.
Proof.
  intros Hauth Hsock Hpending Hok Hna Hsig.
  assert (Hok' : String.eqb data "ok" = false) by by apply String.eqb_neq.
  assert (Hna' : String.eqb data "not authorized" = false)
    by by apply String.eqb_neq.
  assert (Hp : settled_at c (settled st) = None).
  { unfold promise_state in Hpending. simpl in Hpending.
    by destruct (settled_at c (settled st)). }
  simpl.
  assert (E1 : onmessage c data st
    = emit (Signing data) (with_signing (signing st ++ [data]) st)).
  { unfold onmessage. by rewrite Hauth, Hok', Hna'. }
  rewrite E1.
  assert (E2 : signed (length (signing st))
      (emit (Signing data) (with_signing (signing st ++ [data]) st))
    = emit (Sent c signature) (emit (Signing data) st)).
  { unfold signed. simpl.
    rewrite lookup_app_r, Nat.sub_diag by done. simpl.
    rewrite Hsig, Hsock.
    rewrite delete_middle, app_nil_r. by destruct st. }
  rewrite E2.
  assert (E3 : onmessage c "ok" (emit (Sent c signature) (emit (Signing data) st))
    = invoke AtConnect (PromiseResolve c) (VStr "ok")
        (with_isAuthenticated true
           (emit (Sent c signature) (emit (Signing data) st)))).
  { unfold onmessage. simpl. by rewrite Hauth. }
  rewrite E3, invoke_resolve_pending by done.
  repeat split; try done.
  unfold promise_state. simpl. by rewrite Hp, Nat.eqb_refl.
Qed.

(** ** C6: "not authorized" *)

Lemma unauthenticated_step st ev :
  isAuthenticated st = false → not_ok ev →
  isAuthenticated (step st ev) = false
  ∧ pending (step st ev) = pending st
  ∧ List.filter rpc_effect (trace (step st ev))
    = List.filter rpc_effect (trace st).
Proof.
  intros Hauth Hev. destruct ev as [| c data | |]; simpl in Hev; try done.
  - simpl. unfold onmessage. rewrite Hauth. simpl.
    assert (String.eqb data "ok" = false) as -> by by apply String.eqb_neq.
    open_handlers. repeat case_match; simpl in *; simplify_eq; done.
  - open_handlers. repeat case_match; simpl in *; simplify_eq; done.
Qed.

Lemma unauthenticated_run evs : ∀ st,
  isAuthenticated st = false → Forall not_ok evs →
  isAuthenticated (run st evs) = false
  ∧ pending (run st evs) = pending st
  ∧ List.filter rpc_effect (trace (run st evs))
    = List.filter rpc_effect (trace st).
Proof.
  induction evs as [|ev evs IH]; intros st Hauth Hevs; [done|].
  inversion Hevs as [|? ? Hev Hrest]; subst.
  destruct (unauthenticated_step st ev Hauth Hev) as (Ha & Hp & Ht).
  destruct (IH (step st ev) Ha Hrest) as (Ha' & Hp' & Ht').
  unfold run in *. simpl. repeat split; [done | congruence | congruence].
Qed.

Lemma run_keeps_settlement p r evs : ∀ st,
  settled_at p (settled st) = Some r →
  settled_at p (settled (run st evs)) = Some r.
Proof.
  induction evs as [|ev evs IH]; intros st Hp; [done|].
  unfold run in *. simpl. apply IH. by apply step_keeps_settlement.
Qed.

(** C6 (as amended): ["not authorized"] received before authentication
    rejects the promise of [connect] with the authorization error, for
    good, and leaves the authenticated flag unset; as long as no ["ok"]
    arrives afterwards, no inbound message is handled as RPC traffic. *)
Theorem not_authorized_rejects c st :
  isAuthenticated st = false →
  promise_state st (PNew c) = None →
  let refusal := VErr "Error" "Address is not authorized." in
  let st' := onmessage c "not authorized" st in
  trace st' = Invoked AtConnect (PromiseReject c) refusal :: trace st
  ∧ promise_state st' (PNew c) = Some (Rejected refusal)
  ∧ isAuthenticated st' = false
  ∧ ∀ evs, Forall not_ok evs →
      promise_state (run st' evs) (PNew c) = Some (Rejected refusal)
      ∧ isAuthenticated (run st' evs) = false
      ∧ pending (run st' evs) = pending st
      ∧ List.filter rpc_effect (trace (run st' evs))
        = List.filter rpc_effect (trace st).
Proof.
  intros Hauth Hpending.
  assert (Hp : settled_at c (settled st) = None).
  { unfold promise_state in Hpending. simpl in Hpending.
    by destruct (settled_at c (settled st)). }
  simpl.
  assert (E : onmessage c "not authorized" st
    = invoke AtConnect (PromiseReject c)
        (VErr "Error" "Address is not authorized.") st).
  { unfold onmessage. by rewrite Hauth. }
  rewrite E, invoke_reject_pending by done. clear E.
  set (st' := with_settled _ _).
  assert (Hs : settled_at c (settled st')
    = Some (length (settled st),
            Rejected (VErr "Error" "Address is not authorized."))).
  { simpl. by rewrite Hp, Nat.eqb_refl. }
  split; [done|]. split.
  { unfold promise_state. cbn [resolution]. by rewrite Hs. }
  split; [done|]. intros evs Hevs.
  destruct (unauthenticated_run evs st' Hauth Hevs) as (Ha & Hpe & Htr).
  repeat split; try done.
  unfold promise_state. cbn [resolution].
  by rewrite (run_keeps_settlement _ _ evs _ Hs).
Qed.

(** ** C9: arguments are checked before anything is sent *)

(** C9 (as amended): [getOrder] and [getQuote] throw the bad-arguments
    error, and leave the state untouched (nothing sent, nothing filed),
    when both or neither of [makerAmount] and [takerAmount] are truthy,
    and when [makerToken] or [takerToken] is falsy; [getMaxQuote] does so
    when [makerToken] or [takerToken] is falsy, whatever the amounts. *)
Theorem bad_arguments_throw_first makerAddress params st :
  nullish params = false →
  let both_or_neither :=
    truthy (get params "makerAmount") = truthy (get params "takerAmount") in
  let token_missing :=
    truthy (get params "makerToken") = false
    ∨ truthy (get params "takerToken") = false in
  (both_or_neither ∨ token_missing →
   getOrder makerAddress params st = (Throw BadArgumentsError, st)
   ∧ getQuote makerAddress params st = (Throw BadArgumentsError, st))
  ∧ (token_missing →
     getMaxQuote makerAddress params st = (Throw BadArgumentsError, st)).
Proof.
  intros Hparams. simpl. unfold getOrder, getQuote, getMaxQuote.
  rewrite Hparams. split.
  - intros [Hamounts | [Htoken | Htoken]].
    + rewrite Hamounts.
      by destruct (truthy (get params "takerAmount")).
    + rewrite Htoken. rewrite orb_true_r.
      by destruct (truthy (get params "makerAmount")),
        (truthy (get params "takerAmount")).
    + rewrite Htoken. simpl.
      by destruct (truthy (get params "makerAmount")),
        (truthy (get params "takerAmount")).
  - intros [Htoken | Htoken]; rewrite Htoken; [by rewrite orb_true_r | done].
Qed.

(** ** C8: one order request per intent, collected in order *)

(** One sub-call of [getOrders] on an open socket. *)
Lemma order_request_connected params intent st s :
  nullish intent = false →
  socket st = Some s →
  ∃ st1,
    order_request params intent st = (Return (caught (next_id st)), st1)
    ∧ socket st1 = Some s
    ∧ address st1 = address st
    ∧ next_id st1 = S (next_id st)
    ∧ next_timer st1 = S (next_timer st)
    ∧ entropy st1 = S (S (entropy st))
    ∧ trace st1
      = Sent s (order_text params intent (address st) (entropy st)) :: trace st
    ∧ timers st1
      = <[next_timer st := Timer TIMEOUT (uuid (entropy st))
                             (Some (PromiseReject (next_id st)))]> (timers st)
    ∧ RESOLVERS st1
      = <[uuid (entropy st) := PromiseResolve (next_id st)]> (RESOLVERS st)
    ∧ REJECTORS st1
      = <[uuid (entropy st) := PromiseReject (next_id st)]> (REJECTORS st).
Proof.
  intros Hintent Hsock.
  unfold order_request, makeRPC, promised_call, call, draw_uuid.
  rewrite Hintent. simpl. rewrite Hsock. simpl.
  eexists. split; [reflexivity|]. simpl. by repeat split.
Qed.

(** One sub-call in any state: it returns the caught promise of the next
    identity, whether or not the call could be sent. *)
Lemma order_request_returns params intent st :
  nullish intent = false →
  ∃ st1,
    order_request params intent st = (Return (caught (next_id st)), st1)
    ∧ next_id st1 = S (next_id st).
Proof.
  intros Hintent.
  unfold order_request, makeRPC, promised_call, call, draw_uuid.
  rewrite Hintent. simpl.
  destruct (socket st); simpl.
  - eexists. split; [reflexivity|]. done.
  - eexists. split; [reflexivity|].
    unfold invoke, settle, emit. simpl. by case_match.
Qed.

Lemma order_requests_return params items : ∀ st,
  Forall (λ intent, nullish intent = false) items →
  ∃ st', order_requests params items st
         = (Return (map caught (seq (next_id st) (length items))), st').
Proof.
  induction items as [|intent items IH]; intros st Hitems; simpl.
  - by eexists.
  - inversion Hitems as [|? ? Hintent Hrest]; subst.
    destruct (order_request_returns params intent st Hintent)
      as (st1 & -> & Hid).
    destruct (IH st1 Hrest) as (st' & ->).
    exists st'. by rewrite Hid.
Qed.

Lemma order_requests_connected params items : ∀ st s,
  Forall (λ intent, nullish intent = false) items →
  socket st = Some s →
  ∃ st',
    order_requests params items st
    = (Return (map caught (seq (next_id st) (length items))), st')
    ∧ trace st'
      = rev (imap (λ i intent,
                     Sent s (order_text params intent (address st)
                               (entropy st + 2 * i))) items) ++ trace st
    ∧ (∀ i, i < length items →
         timers st' !! (next_timer st + i)
         = Some (Timer TIMEOUT (uuid (entropy st + 2 * i))
                   (Some (PromiseReject (next_id st + i)))))
    ∧ (∀ h, h < next_timer st → timers st' !! h = timers st !! h)
    ∧ ((∀ a b, uuid a = uuid b → a = b) →
       (∀ i, i < length items →
          RESOLVERS st' !! uuid (entropy st + 2 * i)
          = Some (PromiseResolve (next_id st + i))
          ∧ REJECTORS st' !! uuid (entropy st + 2 * i)
            = Some (PromiseReject (next_id st + i)))
       ∧ (∀ e, e < entropy st →
            RESOLVERS st' !! uuid e = RESOLVERS st !! uuid e
            ∧ REJECTORS st' !! uuid e = REJECTORS st !! uuid e)).
Proof.
  induction items as [|intent items IH]; intros st s Hitems Hsock;
    cbn [order_requests length seq map].
  - eexists. split; [done|]. repeat split; intros; simpl in *; try done; lia.
  - inversion Hitems as [|? ? Hintent Hrest]; subst.
    destruct (order_request_connected params intent st s Hintent Hsock)
      as (st1 & -> & Hs1 & Ha1 & Hid1 & Hnt1 & He1 & Htr1 & Htm1 & HR1 & HJ1).
    destruct (IH st1 s Hrest Hs1)
      as (st' & -> & Htr & Htm & Hold & Hinj).
    exists st'. rewrite Hid1. split; [done|].
    split; [|split; [|split]].
    + rewrite Htr, Htr1, Ha1, He1. cbn [imap rev].
      rewrite <- app_assoc. cbn [app]. rewrite Nat.mul_0_r, Nat.add_0_r.
      do 2 f_equal.
      apply imap_ext. intros i x _. cbn [compose].
      do 2 f_equal. lia.
    + intros [|i] Hi.
      * rewrite !Nat.add_0_r, Hold by lia.
        rewrite Htm1. apply lookup_insert_eq.
      * replace (next_timer st + S i) with (next_timer st1 + i) by lia.
        rewrite Htm by (simpl in Hi; lia). rewrite He1, Hid1.
        replace (S (S (entropy st)) + 2 * i) with (entropy st + 2 * S i) by lia.
        replace (S (next_id st) + i) with (next_id st + S i) by lia.
        done.
    + intros h Hh. rewrite Hold by lia. rewrite Htm1.
      apply lookup_insert_ne. lia.
    + intros Huuid. destruct (Hinj Huuid) as [Hnew Hkept]. split.
      * intros [|i] Hi.
        -- rewrite !Nat.add_0_r.
           destruct (Hkept (entropy st)) as [-> ->]; [lia|].
           rewrite HR1, HJ1. by rewrite !lookup_insert_eq.
        -- destruct (Hnew i) as [HR HJ]; [lia|].
           rewrite He1, Hid1 in HR, HJ.
           replace (entropy st + 2 * S i) with (S (S (entropy st)) + 2 * i) by lia.
           replace (next_id st + S i) with (S (next_id st) + i) by lia.
           done.
      * intros e He. destruct (Hkept e) as [-> ->]; [lia|].
        rewrite HR1, HJ1.
        rewrite !lookup_insert_ne; [done | |];
          intros Heq; apply Huuid in Heq; lia.
Qed.

(** *** [Promise.all] over caught promises *)

Lemma resolution_caught l p :
  resolution l (caught p)
  = match settled_at p l with
    | Some (t, o) => Some (t, Fulfilled (carried o))
    | None => None
    end.
Proof.
  unfold caught. simpl. destruct (settled_at p l) as [[t [v|e]]|]; done.
Qed.

Lemma caught_never_reject l ps :
  earliest_rejection (map (resolution l) (map caught ps)) = None.
Proof.
  induction ps as [|p ps IH]; [done|].
  cbn [map earliest_rejection]. rewrite IH, resolution_caught.
  by destruct (settled_at p l) as [[t o]|].
Qed.

Lemma caught_all_fulfilled l ps :
  (∀ p, p ∈ ps → is_Some (settled_at p l)) →
  ∃ t vs,
    all_fulfilled (map (resolution l) (map caught ps)) = Some (t, vs)
    ∧ length vs = length ps
    ∧ ∀ i p, ps !! i = Some p →
        ∃ t' o, settled_at p l = Some (t', o) ∧ vs !! i = Some (carried o).
Proof.
  induction ps as [|p ps IH]; intros Hall.
  - exists 0, []. by repeat split.
  - destruct IH as (t & vs & Hvs & Hlen & Hnth).
    { intros q Hq. apply Hall. by right. }
    destruct (Hall p) as [[t' o] Hp]; [by left|].
    exists (Nat.max t' t), (carried o :: vs).
    cbn [map all_fulfilled]. rewrite resolution_caught, Hp, Hvs.
    repeat split; [simpl; by rewrite Hlen|].
    intros [|i] q Hq; simpl in Hq.
    + simplify_eq. by exists t', o.
    + by apply Hnth.
Qed.

Lemma caught_pending l ps p :
  p ∈ ps → settled_at p l = None →
  all_fulfilled (map (resolution l) (map caught ps)) = None.
Proof.
  induction ps as [|q ps IH]; intros Hin Hp; [by inversion Hin|].
  cbn [map all_fulfilled]. rewrite resolution_caught.
  destruct (settled_at q l) as [[t o]|] eqn:Hq; [|done].
  inversion Hin; subst; [congruence|].
  by rewrite IH.
Qed.

(** C8: for an array of N intents, none of them [null] or [undefined],
    and [params] with a truthy [makerAmount] or [takerAmount],
    [getOrders] returns the aggregate of N caught promises, the i-th
    created for the call to the i-th intent's maker; the aggregate never
    rejects, stays pending while a sub-call is unsettled, and once every
    sub-call is settled it is fulfilled with N values in the order of the
    intents, the i-th being the value the i-th sub-call was resolved or
    rejected with. *)
Theorem getOrders_collects items params st :
  nullish params = false →
  (truthy (get params "makerAmount") || truthy (get params "takerAmount")) = true →
  Forall (λ intent, nullish intent = false) items →
  let ps := seq (next_id st) (length items) in
  let aggregate := PAll (map caught ps) in
  ∃ st',
    getOrders (VArr items) params st = (Return aggregate, st')
    ∧ (∀ s, socket st = Some s →
         trace st'
         = rev (imap (λ i intent,
                        Sent s (order_text params intent (address st)
                                  (entropy st + 2 * i))) items) ++ trace st
         ∧ (∀ i, i < length items →
              timers st' !! (next_timer st + i)
              = Some (Timer TIMEOUT (uuid (entropy st + 2 * i))
                        (Some (PromiseReject (next_id st + i)))))
         ∧ ((∀ a b, uuid a = uuid b → a = b) →
            ∀ i, i < length items →
              RESOLVERS st' !! uuid (entropy st + 2 * i)
              = Some (PromiseResolve (next_id st + i))
              ∧ REJECTORS st' !! uuid (entropy st + 2 * i)
                = Some (PromiseReject (next_id st + i))))
    ∧ ∀ l,
        (∀ t e, resolution l aggregate ≠ Some (t, Rejected e))
        ∧ (∀ p, p ∈ ps → settled_at p l = None →
             resolution l aggregate = None)
        ∧ ((∀ p, p ∈ ps → is_Some (settled_at p l)) →
           ∃ t vs,
             resolution l aggregate = Some (t, Fulfilled (VArr vs))
             ∧ length vs = length items
             ∧ ∀ i p, ps !! i = Some p →
                 ∃ t' o, settled_at p l = Some (t', o)
                         ∧ vs !! i = Some (carried o)).
Proof.
  intros Hparams Hamount Hitems. simpl.
  destruct (order_requests_return params items st Hitems) as (st' & Hreq).
  exists st'. split; [|split].
  - unfold getOrders. by rewrite Hparams, Hamount, Hreq.
  - intros s Hsock.
    destruct (order_requests_connected params items st s Hitems Hsock)
      as (st'' & Hreq' & Htr & Htm & _ & Hinj).
    assert (st'' = st') as -> by congruence.
    split; [done|]. split; [done|].
    intros Huuid i Hi. by apply (Hinj Huuid).
  - intros l. cbn [resolution]. rewrite caught_never_reject.
    split; [|split].
    + intros t e. by destruct (all_fulfilled _) as [[t' vs]|].
    + intros p Hin Hp. by rewrite (caught_pending l _ p).
    + intros Hall.
      destruct (caught_all_fulfilled l _ Hall) as (t & vs & -> & Hlen & Hnth).
      exists t, vs. rewrite length_seq in Hlen. done.
Qed.

End Properties.

(** * The properties at concrete inputs *)



(** C2, the failing run: the timer of call ["a"] fires and its rejector
    receives the timeout error; the response that arrives afterwards still
    finds the resolver filed and invokes it. *)
Lemma late_response_after_timeout_resolves :
  firings "a" (run (H := sample_host) awaiting_a
                 [TimerFires 0; Message 0 (wire response_result)])
  = [Invoked (AtResolver "a") (UserFn 1) (VStr "r");
     Invoked (AtTimeout "a") (UserFn 2) (timeout_error "a")].
Proof. vm_compute. reflexivity. Qed.





Lemma authentication_handshake_witness :
  (isAuthenticated connected = false
   ∧ socket connected = Some 0
   ∧ promise_state connected (PNew 0) = None
   ∧ messageSigner (Host := sample_host) "xyz" = Some "sig1")
  ∧ let st := run (H := sample_host) connected
                [Message 0 "xyz"; SignerDone 0; Message 0 "ok"] in
    trace st = [Invoked AtConnect (PromiseResolve 0) (VStr "ok");
                Sent 0 "sig1"; Signing "xyz"]
    ∧ isAuthenticated st = true
    ∧ promise_state st (PNew 0) = Some (Fulfilled (VStr "ok")).
Proof.
  split; [by repeat split|].
  destruct (authentication_handshake (H := sample_host) 0 "xyz" "sig1"
    connected eq_refl eq_refl eq_refl ltac:(discriminate) ltac:(discriminate)
    eq_refl) as (_ & _ & _ & _ & Htr & Hauth & Hp & _).
  exact (conj Htr (conj Hauth Hp)).
Defined.

(** C6, the claim as stated fails: after ["not authorized"] the handler
    still takes the server's ["ok"], and the peer's [ping] that follows is
    dispatched to the registered handler. *)
Lemma ok_after_not_authorized_opens_rpc :
  let st := run (H := sample_host) connected
              [Message 0 "not authorized"; Message 0 "ok";
               Message 0 (wire ping)] in
  promise_state st (PNew 0)
  = Some (Rejected (VErr "Error" "Address is not authorized."))
  ∧ isAuthenticated st = true
  ∧ List.filter rpc_effect (trace st) = [Handled "ping" 7 ping].
Proof. repeat split; vm_compute; reflexivity. Qed.

Lemma not_authorized_rejects_witness :
  (isAuthenticated connected = false
   ∧ promise_state connected (PNew 0) = None)
  ∧ let st := run (H := sample_host) connected
                [Message 0 "not authorized"; Message 0 "xyz";
                 Message 0 (wire ping)] in
    promise_state st (PNew 0)
    = Some (Rejected (VErr "Error" "Address is not authorized."))
    ∧ isAuthenticated st = false
    ∧ List.filter rpc_effect (trace st) = [].
Proof.
  split; [by split|].
  destruct (not_authorized_rejects (H := sample_host) 0 connected
    eq_refl eq_refl) as (_ & _ & _ & Hrun).
  destruct (Hrun [Message 0 "xyz"; Message 0 (wire ping)])
    as (Hp & Hauth & _ & Htr).
  - repeat constructor; discriminate.
  - exact (conj Hp (conj Hauth Htr)).
Defined.



Lemma getOrders_collects_witness :
  (nullish maker_amount = false
   ∧ truthy (get maker_amount "makerAmount") = true)
  ∧ let asked := getOrders (H := sample_host) (VArr two_intents) maker_amount
                   authenticated in
    asked.1 = Return (PAll [caught 1; caught 2])
    ∧ promise_state asked.2 (PAll [caught 1; caught 2]) = None
    ∧ promise_state
        (run (H := sample_host) asked.2
           [TimerFires 0; Message 0 (wire response_order)])
        (PAll [caught 1; caught 2])
      = Some (Fulfilled (VArr [timeout_error "uuid-0"; VStr "order"])).
Proof.
  split; [by split|].
  destruct (getOrders_collects (H := sample_host) two_intents
    maker_amount authenticated eq_refl eq_refl) as (st' & Hcall & _ & _).
  - by repeat constructor.
  - intros asked. subst asked. rewrite Hcall.
    split; [reflexivity|].
    rewrite <- Hcall. split; vm_compute; reflexivity.
Defined.

(** C9, the claim as stated fails: [getMaxQuote] does not look at the
    amounts; with both of them given it sends the request and files the
    call. *)
Lemma getMaxQuote_ignores_amounts :
  truthy (get both_amounts "makerAmount") = true
  ∧ truthy (get both_amounts "takerAmount") = true
  ∧ let result := getMaxQuote (H := sample_host) (VStr "0xmaker")
                    both_amounts authenticated in
    result.1 = Return (PNew 1)
    ∧ length (trace result.2) = S (length (trace authenticated))
    ∧ REJECTORS result.2 !! "uuid-0" = Some (PromiseReject 1)
    ∧ TIMEOUTS result.2 !! "uuid-0" = Some 0.
Proof. repeat split; vm_compute; reflexivity. Qed.

Lemma bad_arguments_throw_first_witness :
  nullish both_amounts = false
  ∧ getOrder (H := sample_host) (VStr "0xmaker") both_amounts authenticated
    = (Throw BadArgumentsError, authenticated)
  ∧ getQuote (H := sample_host) (VStr "0xmaker") both_amounts authenticated
    = (Throw BadArgumentsError, authenticated).
Proof.
  split; [reflexivity|].
  exact (proj1 (bad_arguments_throw_first (H := sample_host) (VStr "0xmaker")
    both_amounts authenticated eq_refl) (or_introl eq_refl)).
Defined.


(** * Further properties *)

Section Coverage.

Context `{Host}.

Ltac open_up :=
  unfold step, onmessage, dispatch, fire, signed, call, draw_uuid,
    invoke_if_function, invoke, settle, clearTimeout, emit, firings, sends,
    id_of in *.

(** ** [call] *)

(** X2: a call that cannot be made throws a [TypeError] and files
    nothing; without a socket nothing is sent either, but a [null] or
    [undefined] message is put on the wire before the exception. *)
Theorem failed_call_files_nothing receiver message resolve reject st :
  socket st = None ∨ nullish message = true →
  let result := call receiver message resolve reject st in
  result.1 = Throw TypeError
  ∧ pending result.2 = pending st
  ∧ settled result.2 = settled st
  ∧ (socket st = None → trace result.2 = trace st)
  ∧ (∀ s, socket st = Some s →
       trace result.2
       = Sent s (envelope_text (address st) receiver message (entropy st))
         :: trace st).
Proof.
  intros Hbad. unfold call, draw_uuid, envelope_text. simpl.
  destruct (socket st) as [s|] eqn:Hs; simpl.
  - destruct Hbad as [|Hnull]; [done|]. rewrite Hnull. simpl.
    do 4 (split; [done|]). by intros ? [= <-].
  - do 4 (split; [done|]). done.
Qed.

(** A call that goes through: what it files, arms and sends. *)
Lemma call_files receiver message resolve reject st s :
  socket st = Some s → nullish message = false →
  ∃ st1,
    call receiver message resolve reject st = (Return (), st1)
    ∧ RESOLVERS st1 = match resolve with
                      | Some f => <[id_of message := f]> (RESOLVERS st)
                      | None => RESOLVERS st
                      end
    ∧ REJECTORS st1 = match reject with
                      | Some f => <[id_of message := f]> (REJECTORS st)
                      | None => REJECTORS st
                      end
    ∧ TIMEOUTS st1 = <[id_of message := next_timer st]> (TIMEOUTS st)
    ∧ timers st1
      = <[next_timer st := Timer TIMEOUT (id_of message) reject]> (timers st)
    ∧ next_timer st1 = S (next_timer st)
    ∧ trace st1
      = Sent s (envelope_text (address st) receiver message (entropy st))
        :: trace st
    ∧ settled st1 = settled st
    ∧ isAuthenticated st1 = isAuthenticated st
    ∧ socket st1 = socket st
    ∧ next_id st1 = next_id st
    ∧ entropy st1 = S (entropy st)
    ∧ address st1 = address st.
Proof.
  intros Hs Hm. unfold call, draw_uuid, envelope_text, id_of.
  simpl. rewrite Hs, Hm. simpl.
  eexists. split; [reflexivity|].
  destruct resolve, reject; simpl; by repeat split.
Qed.

Lemma call_returned receiver message resolve reject st st1 :
  call receiver message resolve reject st = (Return (), st1) →
  ∃ s, socket st = Some s ∧ nullish message = false.
Proof.
  unfold call, draw_uuid. simpl.
  destruct (socket st) as [s|]; [|done].
  destruct (nullish message); [done|]. by exists s.
Qed.

(** *** Calls without callbacks *)

Lemma mute_step id st ev :
  mute id st → other_call id ev →
  mute id (step st ev) ∧ firings id (step st ev) = firings id st.
Proof.
  intros (HR & HJ & HT) Hev. unfold mute.
  destruct ev as [receiver message resolve reject | c data | h | i];
    simpl in Hev.
  - open_up. repeat case_match; simpl in *; simplify_eq;
      repeat split; try done;
      rewrite ?lookup_insert_ne by done; try done.
    all: intros h t; rewrite lookup_insert; case_decide;
      [intros; simplify_eq; simpl in *; done | apply HT].
  - open_up. repeat case_match; simpl in *; simplify_eq;
      repeat split; try done.
    all: try (rewrite lookup_delete; case_decide; done).
    all: try (intros h t; rewrite ?lookup_delete; repeat case_decide;
              try done; apply HT).
    all: try (apply HT).
    all: repeat match goal with
           | |- context [String.eqb ?a ?b] =>
               destruct (String.eqb_spec a b); simplify_eq
           end; congruence.
  - open_up. destruct (timers st !! h) as [t|] eqn:Ht; [|done].
    pose proof (HT _ _ Ht) as Hnone.
    destruct (decide (t_id t = id)) as [Hk|Hk].
    + rewrite (Hnone Hk). simpl. repeat split; try done.
      intros h' t'. rewrite lookup_delete. case_decide; [done | apply HT].
    + assert (Hno : String.eqb (t_id t) id = false)
        by by apply String.eqb_neq.
      repeat case_match; simpl in *; simplify_eq; rewrite ?Hno;
        repeat split; try done.
      all: intros h' t'; rewrite lookup_delete; case_decide;
        [done | apply HT].
  - open_up. repeat case_match; simpl in *; simplify_eq; done.
Qed.

Lemma mute_run id evs : ∀ st,
  mute id st → Forall (other_call id) evs →
  mute id (run st evs) ∧ firings id (run st evs) = firings id st.
Proof.
  induction evs as [|ev evs IH]; intros st Hm Hevs; [done|].
  inversion Hevs as [|? ? Hev Hrest]; subst.
  destruct (mute_step id st ev Hm Hev) as [Hm' Hf'].
  destruct (IH (step st ev) Hm' Hrest) as [Hm'' Hf''].
  unfold run in *. simpl. split; [done | congruence].
Qed.

(** X3: a call made with neither a resolver nor a rejector still arms
    its timer, and nothing that follows, neither its response nor its
    timer, invokes a function for its id. *)
Theorem silent_call_stays_silent receiver message st st1 evs :
  call receiver message None None st = (Return (), st1) →
  mute (id_of message) st →
  Forall (other_call (id_of message)) evs →
  timers st1 !! next_timer st = Some (Timer TIMEOUT (id_of message) None)
  ∧ TIMEOUTS st1 !! id_of message = Some (next_timer st)
  ∧ firings (id_of message) (run st1 evs) = firings (id_of message) st.
Proof.
  intros Hcall (HR & HJ & HT) Hevs.
  destruct (call_returned _ _ _ _ _ _ Hcall) as (s & Hs & Hm).
  destruct (call_files receiver message None None st s Hs Hm)
    as (st1' & Hcall' & HR1 & HJ1 & HT1 & Htm1 & _ & Htr1 & _).
  assert (st1' = st1) as -> by congruence.
  split; [rewrite Htm1; apply lookup_insert_eq|].
  split; [rewrite HT1; apply lookup_insert_eq|].
  assert (Hmute : mute (id_of message) st1).
  { unfold mute. rewrite HR1, HJ1, Htm1. repeat split; try done.
    intros h t. rewrite lookup_insert. case_decide.
    - by intros [= <-].
    - apply HT. }
  destruct (mute_run _ evs st1 Hmute Hevs) as [_ ->].
  unfold firings. by rewrite Htr1.
Qed.


(** *** Two calls under one id *)


(** ** Invariants of the bookkeeping *)

Lemma tidy_step st ev : tidy st → tidy (step st ev).
Proof.
  intros (HR & HJ & Htm & HT). unfold tidy.
  destruct ev as [receiver message resolve reject | c data | h | i].
  - simpl.
    destruct (socket st) as [s|] eqn:Hs;
      [|unfold call, draw_uuid; simpl; by rewrite Hs].
    destruct (nullish message) eqn:Hm;
      [unfold call, draw_uuid; simpl; by rewrite Hs, Hm|].
    destruct (call_files receiver message resolve reject st s Hs Hm)
      as (st1 & -> & HR1 & HJ1 & HT1 & Htm1 & Hnt1 & _). simpl.
    split; [|split; [|split]].
    + intros k Hk. rewrite HT1, lookup_insert. case_decide; [by eexists|].
      apply HR. rewrite HR1 in Hk.
      destruct resolve; [by rewrite lookup_insert_ne in Hk | done].
    + intros k Hk. rewrite HT1, lookup_insert. case_decide; [by eexists|].
      apply HJ. rewrite HJ1 in Hk.
      destruct reject; [by rewrite lookup_insert_ne in Hk | done].
    + intros h t. rewrite Htm1, Hnt1, HT1, lookup_insert. case_decide.
      * intros [= <-]. simpl. split; [lia|].
        rewrite lookup_insert_eq. by eexists.
      * intros Ht. destruct (Htm _ _ Ht) as [Hlt Hk]. split; [lia|].
        rewrite lookup_insert. by case_decide.
    + intros k h. rewrite HT1, Hnt1, lookup_insert. case_decide.
      * intros [= <-]. lia.
      * intros Hk. pose proof (HT _ _ Hk). lia.
  - simpl. destruct (onmessage_cases data st)
      as [Hels | (message & Hauth & Hdec & Hmethod & Hid)].
    + destruct (onmessage_elsewhere c data st Hels) as (Hp & Hnt & _).
      unfold pending in Hp. injection Hp as -> -> -> ->. by rewrite Hnt.
    + destruct (response_path c data message st Hauth Hdec Hmethod Hid)
        as (-> & -> & -> & Htm' & _).
      rewrite (onmessage_next_timer c data st).
      simpl in Htm'. rewrite Htm'.
      assert (Hsub : ∀ h t,
        match TIMEOUTS st !! id_of message with
        | Some h0 => delete h0 (timers st)
        | None => timers st
        end !! h = Some t → timers st !! h = Some t).
      { intros h t Ht. destruct (TIMEOUTS st !! id_of message); [|done].
        by apply lookup_delete_Some in Ht as [_ Ht]. }
      split; [|split; [|split]].
      * intros k [x Hx]. apply lookup_delete_Some in Hx as [_ Hx].
        apply HR. by eexists.
      * intros k [x Hx]. apply lookup_delete_Some in Hx as [_ Hx].
        apply HJ. by eexists.
      * intros h t Ht. apply Htm. by apply Hsub.
      * done.
  - simpl. unfold fire. destruct (timers st !! h) as [t|] eqn:Ht; [|done].
    assert (E : ∀ x : state,
      RESOLVERS (invoke_if_function (AtTimeout (t_id t)) (t_reject t)
                   (timeout_error (t_id t)) x) = RESOLVERS x
      ∧ REJECTORS (invoke_if_function (AtTimeout (t_id t)) (t_reject t)
                     (timeout_error (t_id t)) x) = REJECTORS x
      ∧ TIMEOUTS (invoke_if_function (AtTimeout (t_id t)) (t_reject t)
                    (timeout_error (t_id t)) x) = TIMEOUTS x
      ∧ timers (invoke_if_function (AtTimeout (t_id t)) (t_reject t)
                  (timeout_error (t_id t)) x) = timers x
      ∧ next_timer (invoke_if_function (AtTimeout (t_id t)) (t_reject t)
                      (timeout_error (t_id t)) x) = next_timer x).
    { intros x. unfold invoke_if_function, invoke, settle, emit.
      repeat case_match; done. }
    destruct (E (with_timers (delete h (timers st)) st))
      as (-> & -> & -> & -> & ->). simpl.
    split; [done|]. split; [done|]. split; [|done].
    intros h' t' Ht'. apply lookup_delete_Some in Ht' as [_ Ht'].
    by apply Htm.
  - simpl. unfold signed, emit. repeat case_match; done.
Qed.

(** X5: in every state the messenger reaches, whatever is filed in
    [RESOLVERS] or [REJECTORS], and every armed timer, belongs to an id
    that has a handle in [TIMEOUTS], and every handle is one that
    [setTimeout] has given out. *)
Theorem bookkeeping_stays_tidy evs : ∀ st, tidy st → tidy (run st evs).
Proof.
  induction evs as [|ev evs IH]; intros st Hst; [done|].
  unfold run in *. simpl. apply IH. by apply tidy_step.
Qed.

Lemma TIMEOUTS_step id st ev :
  is_Some (TIMEOUTS st !! id) → is_Some (TIMEOUTS (step st ev) !! id).
Proof.
  intros Hid. destruct ev; open_up;
    repeat case_match; simpl in *; simplify_eq; try done.
  all: rewrite lookup_insert; by case_decide.
Qed.

(** X6: a handle filed in [TIMEOUTS] is never taken out again: no
    response, no timer and no later call removes the entry of an id. *)
Theorem TIMEOUTS_never_forgets id evs : ∀ st,
  is_Some (TIMEOUTS st !! id) → is_Some (TIMEOUTS (run st evs) !! id).
Proof.
  induction evs as [|ev evs IH]; intros st Hid; [done|].
  unfold run in *. simpl. apply IH. by apply TIMEOUTS_step.
Qed.

(** ** What the handlers never do *)

(** X7: neither an inbound message, whatever it is, nor a timer puts
    anything on a socket: the messenger answers no peer and sends no
    error response. *)
Theorem handlers_never_send c data h st :
  sends (onmessage c data st) = sends st
  ∧ sends (fire h st) = sends st.
Proof.
  split; open_up; repeat case_match; simpl in *; simplify_eq; done.
Qed.

(** X8: once authenticated, an inbound text is dropped without a trace
    when it does not parse, when its envelope has no truthy [message],
    when that message does not parse or is falsy, and when it has neither
    a truthy [method] nor a truthy [id]. *)
Theorem unusable_messages_are_dropped c data st :
  isAuthenticated st = true →
  JSON_parse data = None
  ∨ (∃ payload, JSON_parse data = Some payload
       ∧ (truthy (get payload "message") = false
          ∨ JSON_parse (to_str (get payload "message")) = None
          ∨ ∃ message,
              JSON_parse (to_str (get payload "message")) = Some message
              ∧ (truthy message = false
                 ∨ (truthy (get message "method") = false
                    ∧ truthy (get message "id") = false)))) →
  onmessage c data st = st.
Proof.
  intros Hauth Hcase. unfold onmessage, decode. rewrite Hauth. simpl.
  destruct Hcase as [-> | (payload & -> & Hcase)]; [done|].
  destruct (nullish payload); [done|].
  destruct Hcase as [-> | [Hinner | (message & Hinner & Hcase)]]; [done | |].
  - destruct (truthy (get payload "message")); [|done]. by rewrite Hinner.
  - destruct (truthy (get payload "message")); [|done]. rewrite Hinner.
    destruct Hcase as [-> | [Hm Hi]]; [by rewrite andb_false_r|].
    destruct (truthy payload && truthy message)%bool; [|done].
    unfold dispatch. by rewrite Hm, Hi.
Qed.

(** ** The handshake *)

(** X9: the promise of [connect] keeps its first settlement: an ["ok"]
    that arrives after the promise was settled, say by ["not
    authorized"], authenticates the messenger all the same, and the
    promise stays as it was. *)
Theorem ok_after_settlement c o st :
  isAuthenticated st = false →
  promise_state st (PNew c) = Some o →
  let st' := onmessage c "ok" st in
  isAuthenticated st' = true
  ∧ promise_state st' (PNew c) = Some o
  ∧ trace st' = Invoked AtConnect (PromiseResolve c) (VStr "ok") :: trace st.
Proof.
  intros Hauth Hp. simpl. unfold onmessage. rewrite Hauth. simpl.
  unfold promise_state in *. cbn [resolution] in *.
  destruct (settled_at c (settled st)) as [[t o']|] eqn:Hs; [|done].
  unfold invoke, settle, emit. simpl. rewrite Hs. simpl. by rewrite Hs.
Qed.

(** X10: the signature goes to the socket the messenger holds when the
    signer finishes: if [connect] has been called again in between, the
    signature of a challenge of the earlier connection is sent on the new
    socket. *)
Theorem signature_follows_the_socket c data signature st :
  isAuthenticated st = false →
  data ≠ "ok" → data ≠ "not authorized" →
  messageSigner data = Some signature →
  let st1 := onmessage c data st in
  let redial := connect st1 in
  let st3 := signed (length (signing st)) redial.2 in
  redial.1 = next_id st
  ∧ trace st3 = Sent (next_id st) signature :: Signing data :: trace st
  ∧ signing st3 = signing st.
Proof.
  intros Hauth Hok Hna Hsig.
  assert (Hok' : String.eqb data "ok" = false) by by apply String.eqb_neq.
  assert (Hna' : String.eqb data "not authorized" = false)
    by by apply String.eqb_neq.
  simpl. unfold onmessage. rewrite Hauth, Hok', Hna'. simpl.
  unfold signed, connect, emit. simpl.
  rewrite lookup_app_r, Nat.sub_diag by done. simpl.
  rewrite Hsig. simpl. by rewrite delete_middle, app_nil_r.
Qed.


(** ** The helpers and their promises *)

(** [makeRPC] without an id, then the promise around [call], on an open
    socket. *)
Lemma helper_asks receiver method params st s payload st1 p st' :
  socket st = Some s →
  params ≠ VUndef →
  makeRPC (VStr method) params VUndef st = (payload, st1) →
  promised_call receiver payload st1 = (p, st') →
  asks st s receiver method params p st'.
Proof.
  intros Hs Hparams. unfold makeRPC, draw_uuid.
  assert (match params with VUndef => VObj [] | _ => params end = params)
    as -> by by destruct params.
  intros [= <- <-].
  unfold promised_call, call, draw_uuid, asks, envelope_text, request.
  simpl. rewrite Hs. simpl. intros [= <- <-]. by repeat split.
Qed.

(** A response to a filed call leaves the promise at its verdict. *)
Lemma response_verdict id p c data message st :
  filed id p st →
  isAuthenticated st = true →
  decode data = Some message →
  answers id message →
  promise_state (onmessage c data st) (PNew p) = verdict message.
Proof.
  intros (HR & HJ & Hp) Hauth Hdec (Hmethod & Hid & Hans).
  assert (Hst : settled (onmessage c data st)
    = match verdict message with
      | Some o => (p, o) :: settled st
      | None => settled st
      end).
  { unfold onmessage. rewrite Hauth, Hdec. simpl.
    unfold dispatch. rewrite Hmethod, Hid. fold (id_of message).
    rewrite Hans, HR, HJ. unfold verdict.
    destruct (hasOwnProperty message "error"),
      (truthy (get message "result")); simpl;
      unfold clearTimeout, invoke, settle, emit; simpl; rewrite ?Hp; simpl.
    all: by destruct (TIMEOUTS st !! id). }
  unfold promise_state. cbn [resolution]. rewrite Hst.
  destruct (verdict message) as [o|]; simpl; rewrite Hp;
    [by rewrite Nat.eqb_refl | done].
Qed.

(** X11: a response settles the promise whose capabilities are filed
    under its id: with an [error] key the promise is rejected with the
    error, otherwise with a truthy [result] it is fulfilled with the
    result, and otherwise it is left pending; once settled, nothing that
    follows changes it. *)
Theorem response_settles_promise id p c data message st :
  filed id p st →
  isAuthenticated st = true →
  decode data = Some message →
  answers id message →
  let st' := onmessage c data st in
  promise_state st' (PNew p) = verdict message
  ∧ ∀ evs, is_Some (verdict message) →
      promise_state (run st' evs) (PNew p) = verdict message.
Proof.
  intros Hfiled Hauth Hdec Hans. simpl.
  pose proof (response_verdict id p c data message st Hfiled Hauth Hdec Hans)
    as Hnow.
  split; [done|]. intros evs [o Ho].
  unfold promise_state in *. cbn [resolution] in *.
  destruct (settled_at p (settled (onmessage c data st))) as [r|] eqn:Hr;
    [|by rewrite Ho in Hnow].
  by rewrite (run_keeps_settlement _ _ evs _ Hr).
Qed.

(** X12: when the timer of a helper's call fires while the promise is
    pending, the promise is rejected with the timeout error, and nothing
    that follows, not even the response, changes that. *)
Theorem timeout_rejects_promise h id p st evs :
  timers st !! h = Some (Timer TIMEOUT id (Some (PromiseReject p))) →
  settled_at p (settled st) = None →
  let st' := fire h st in
  promise_state st' (PNew p) = Some (Rejected (timeout_error id))
  ∧ get (timeout_error id) "code" = VNum (-1)
  ∧ promise_state (run st' evs) (PNew p) = Some (Rejected (timeout_error id)).
Proof.
  intros Ht Hp. simpl.
  assert (Hs : settled_at p (settled (fire h st))
               = Some (length (settled st), Rejected (timeout_error id))).
  { unfold fire. rewrite Ht. simpl.
    unfold invoke, settle, emit. simpl. rewrite Hp. simpl.
    by rewrite Hp, Nat.eqb_refl. }
  unfold promise_state. cbn [resolution].
  rewrite (run_keeps_settlement _ _ evs _ Hs), Hs. done.
Qed.



(** *** The indexer helpers *)

(** X13: [findIntents] throws, before anything is sent or filed, when
    [makerTokens] or [takerTokens] is falsy; otherwise it asks the
    indexer for ["findIntents"] with the two token lists and the role,
    which is ["maker"] when none is given. *)
Theorem findIntents_checks_then_asks indexer makerTokens takerTokens role st s :
  socket st = Some s →
  (truthy makerTokens = false ∨ truthy takerTokens = false →
   findIntents indexer makerTokens takerTokens role st
   = (Throw (VErr "Error" "missing arguments makerTokens or takerTokens"), st))
  ∧ (truthy makerTokens = true → truthy takerTokens = true →
     ∃ st',
       findIntents indexer makerTokens takerTokens role st
       = (Return (PNew (next_id st)), st')
       ∧ asks st s (VStr indexer) "findIntents"
           (VObj [("makerTokens", makerTokens);
                  ("takerTokens", takerTokens);
                  ("role", match role with VUndef => VStr "maker" | _ => role end)])
           (next_id st) st').
Proof.
  intros Hs. unfold findIntents. split.
  - intros [-> | ->]; [done | by rewrite orb_true_r].
  - intros -> ->. cbn [negb orb].
    destruct (makeRPC _ _ _ st) as [payload st1] eqn:Emade.
    destruct (promised_call _ payload st1) as [p st2] eqn:Easked.
    pose proof (λ Hne, helper_asks _ _ _ _ _ _ _ _ _ Hs Hne Emade Easked)
      as Hasks.
    specialize (Hasks ltac:(done)).
    pose proof Hasks as [-> _]. by exists st2.
Qed.

(** X14: [getIntents] and [setIntents] ask the indexer, the first with
    the address it was given, as it was given, the second with the
    messenger's own address in lower case and the intents. *)
Theorem intents_helpers_ask indexer addr intents st s :
  socket st = Some s →
  (∃ st', getIntents indexer addr st = (PNew (next_id st), st')
          ∧ asks st s (VStr indexer) "getIntents"
              (VObj [("address", addr)]) (next_id st) st')
  ∧ (∃ st', setIntents indexer intents st = (PNew (next_id st), st')
            ∧ asks st s (VStr indexer) "setIntents"
                (VObj [("address", VStr (toLowerCase (address st)));
                       ("intents", intents)]) (next_id st) st').
Proof.
  intros Hs. unfold getIntents, setIntents. split.
  - destruct (makeRPC _ _ _ st) as [payload st1] eqn:Emade.
    destruct (promised_call _ payload st1) as [p st2] eqn:Easked.
    pose proof (λ Hne, helper_asks _ _ _ _ _ _ _ _ _ Hs Hne Emade Easked)
      as Hasks.
    specialize (Hasks ltac:(done)).
    pose proof Hasks as [-> _]. by exists st2.
  - destruct (makeRPC _ _ _ st) as [payload st1] eqn:Emade.
    destruct (promised_call _ payload st1) as [p st2] eqn:Easked.
    pose proof (λ Hne, helper_asks _ _ _ _ _ _ _ _ _ Hs Hne Emade Easked)
      as Hasks.
    specialize (Hasks ltac:(done)).
    pose proof Hasks as [-> _]. by exists st2.
Qed.

(** *** The maker helpers *)




(** *** Objects as field lists *)

Lemma assoc_set_field k v fields k' :
  assoc k' (set_field k v fields)
  = if String.eqb k' k then Some v else assoc k' fields.
Proof.
  induction fields as [|[k0 v0] fields IH]; simpl.
  - by destruct (String.eqb k' k).
  - destruct (String.eqb_spec k k0) as [Hk|Hk]; simpl.
    + subst k0. by destruct (String.eqb k' k).
    + rewrite IH. destruct (String.eqb_spec k' k) as [Hk'|Hk']; [|done].
      subst k'. by apply String.eqb_neq in Hk as ->.
Qed.

Lemma assoc_absent k (fields : list (string * value)) :
  k ∉ fields.*1 → assoc k fields = None.
Proof.
  induction fields as [|[k0 v0] fields IH]; [done|]. simpl.
  intros Hk. apply not_elem_of_cons in Hk as [Hne Hk].
  apply String.eqb_neq in Hne as ->. by apply IH.
Qed.

(** [{...base, ...extra}]: a key of [extra] wins. *)
Lemma assoc_spread extra : ∀ base k,
  NoDup extra.*1 →
  assoc k (spread base extra)
  = match assoc k extra with
    | Some v => Some v
    | None => assoc k base
    end.
Proof.
  unfold spread.
  induction extra as [|[k1 v1] extra IH]; intros base k Hnd; [done|].
  simpl in *. apply NoDup_cons in Hnd as [Hk1 Hnd].
  rewrite IH by done. rewrite assoc_set_field.
  destruct (String.eqb_spec k k1) as [->|Hne]; [|done].
  by rewrite (assoc_absent _ _ Hk1).
Qed.

(** *** [getOrder] and the [v] of an order *)

(** X17: the order [getOrder] hands on is the object of the response
    with its [v] turned into a number when [v] is truthy; every other
    field is kept as it is, a falsy [v] is left alone, and when the
    conversion throws, the exception comes out instead. *)
Theorem decode_v_keeps_the_order fields :
  let order := VObj fields in
  (truthy (get order "v") = false →
   ∃ fields', decode_v order = Return (VObj fields')
              ∧ ∀ k, get (VObj fields') k = get order k)
  ∧ (truthy (get order "v") = true →
     (∀ n, toNumber (get order "v") = Return n →
        ∃ fields', decode_v order = Return (VObj fields')
                   ∧ get (VObj fields') "v" = n
                   ∧ ∀ k, k ≠ "v" → get (VObj fields') k = get order k)
     ∧ (∀ e, toNumber (get order "v") = Throw e → decode_v order = Throw e)).
Proof.
  simpl. unfold decode_v. simpl. split.
  - intros ->. eexists. split; [done|].
    intros k. simpl. unfold spread. simpl. rewrite assoc_set_field.
    by destruct (String.eqb_spec k "v") as [->|].
  - intros ->. split.
    + intros n ->. eexists. split; [done|].
      unfold spread. simpl. rewrite assoc_set_field. split; [done|].
      intros k Hk. rewrite assoc_set_field.
      by apply String.eqb_neq in Hk as ->.
    + by intros e ->.
Qed.


(** *** Helpers before [connect] *)


(** *** [getOrders] *)

(** X20: [getOrders] throws before anything is sent or filed when
    [params] is [null] or [undefined], when [intents] is not an array,
    and when neither amount of [params] is truthy. *)
Theorem getOrders_checks_first intents params st :
  (nullish params = true →
   getOrders intents params st = (Throw TypeError, st))
  ∧ (nullish params = false →
     (∀ items, intents ≠ VArr items)
     ∨ (truthy (get params "makerAmount") = false
        ∧ truthy (get params "takerAmount") = false) →
     getOrders intents params st
     = (Throw (VErr "Error" "bad arguments passed to getOrders"), st)).
Proof.
  unfold getOrders. split; [by intros ->|].
  intros -> [Harr | [-> ->]].
  - destruct intents; try done. by destruct (Harr items).
  - by destruct intents.
Qed.

(** X21: the fields of [params] go out as they came, and they win
    over what [getOrders] fills in: an amount is not turned into a string,
    and a [makerToken], [takerToken] or [takerAddress] of [params]
    replaces the intent's tokens and the messenger's address. *)
Theorem getOrders_forwards_params fields intent st s :
  NoDup fields.*1 →
  nullish intent = false →
  socket st = Some s →
  let params := VObj fields in
  let sent :=
    get (order_payload params intent (toLowerCase (address st))
           (uuid (entropy st))) "params" in
  trace (order_request params intent st).2
  = Sent s (order_text params intent (address st) (entropy st)) :: trace st
  ∧ (∀ k, hasOwnProperty params k = true → get sent k = get params k)
  ∧ (hasOwnProperty params "makerToken" = false →
     get sent "makerToken" = get intent "makerToken")
  ∧ (hasOwnProperty params "takerToken" = false →
     get sent "takerToken" = get intent "takerToken")
  ∧ (hasOwnProperty params "takerAddress" = false →
     get sent "takerAddress" = VStr (toLowerCase (address st))).
Proof.
  intros Hnd Hintent Hs. simpl.
  destruct (order_request_connected (VObj fields) intent st s Hintent Hs)
    as (st1 & -> & _ & _ & _ & _ & _ & Htr & _).
  split; [done|].
  assert (Habsent : ∀ k, bool_decide (is_Some (assoc k fields)) = false →
            assoc k fields = None).
  { intros k Hk. apply bool_decide_eq_false in Hk.
    destruct (assoc k fields); [|done]. destruct Hk. by eexists. }
  split; [|split; [|split]].
  - intros k Hk. apply bool_decide_eq_true in Hk as [v Hv].
    by rewrite assoc_spread, Hv.
  - intros Hk. by rewrite assoc_spread, (Habsent _ Hk).
  - intros Hk. by rewrite assoc_spread, (Habsent _ Hk).
  - intros Hk. by rewrite assoc_spread, (Habsent _ Hk).
Qed.

(** X22: a [null] or [undefined] intent makes [getOrders] throw a
    [TypeError], but only when its turn comes: the requests for the
    intents before it have been sent and their timers armed. *)
Theorem getOrders_stops_at_null_intent params before bad after st s :
  nullish params = false →
  (truthy (get params "makerAmount") || truthy (get params "takerAmount")) = true →
  Forall (λ intent, nullish intent = false) before →
  nullish bad = true →
  socket st = Some s →
  ∃ st',
    getOrders (VArr (before ++ bad :: after)) params st = (Throw TypeError, st')
    ∧ trace st'
      = rev (imap (λ i intent,
                     Sent s (order_text params intent (address st)
                               (entropy st + 2 * i))) before) ++ trace st
    ∧ next_timer st' = next_timer st + length before
    ∧ ∀ i, i < length before →
        timers st' !! (next_timer st + i)
        = Some (Timer TIMEOUT (uuid (entropy st + 2 * i))
                  (Some (PromiseReject (next_id st + i)))).
Proof.
  intros Hparams Hamount Hbefore Hbad Hs.
  assert (Hreq : ∃ st',
    order_requests params (before ++ bad :: after) st = (Throw TypeError, st')
    ∧ trace st'
      = rev (imap (λ i intent,
                     Sent s (order_text params intent (address st)
                               (entropy st + 2 * i))) before) ++ trace st
    ∧ next_timer st' = next_timer st + length before
    ∧ (∀ i, i < length before →
         timers st' !! (next_timer st + i)
         = Some (Timer TIMEOUT (uuid (entropy st + 2 * i))
                   (Some (PromiseReject (next_id st + i)))))
    ∧ ∀ h, h < next_timer st → timers st' !! h = timers st !! h).
  { clear Hparams Hamount. revert st Hs.
    induction before as [|intent before IH]; intros st Hs;
      cbn [app order_requests length imap rev].
    - unfold order_request. rewrite Hbad. eexists. split; [done|].
      repeat split; intros; simpl in *; try done; lia.
    - inversion Hbefore as [|? ? Hintent Hrest]; subst.
      destruct (order_request_connected params intent st s Hintent Hs)
        as (st1 & -> & Hs1 & Ha1 & Hid1 & Hnt1 & He1 & Htr1 & Htm1 & _).
      destruct (IH Hrest st1 Hs1) as (st' & -> & Htr & Hnt & Htm & Hold).
      exists st'. split; [done|].
      split; [|split; [|split]].
      + rewrite Htr, Htr1, Ha1, He1.
        rewrite <- app_assoc. cbn [app]. rewrite Nat.mul_0_r, Nat.add_0_r.
        do 2 f_equal. apply imap_ext. intros i x _. cbn [compose].
        do 2 f_equal. lia.
      + rewrite Hnt, Hnt1. lia.
      + intros [|i] Hi.
        * rewrite !Nat.add_0_r, Hold by lia.
          rewrite Htm1. apply lookup_insert_eq.
        * replace (next_timer st + S i) with (next_timer st1 + i) by lia.
          rewrite Htm by lia. rewrite He1, Hid1.
          replace (S (S (entropy st)) + 2 * i) with (entropy st + 2 * S i)
            by lia.
          replace (S (next_id st) + i) with (next_id st + S i) by lia.
          done.
      + intros h Hh. rewrite Hold by lia. rewrite Htm1.
        apply lookup_insert_ne. lia. }
  destruct Hreq as (st' & Hreq & Htr & Hnt & Htm & _).
  exists st'. split; [|done].
  unfold getOrders. by rewrite Hparams, Hamount, Hreq.
Qed.


(** ** The life of a connection *)

Lemma elapse_inner has_ping evs : ∀ w,
  elapse has_ping w (map Inner evs) = with_messenger (run (messenger w) evs) w.
Proof.
  unfold elapse, run.
  induction evs as [|ev evs IH]; intros w; simpl; [by destruct w|].
  by rewrite IH.
Qed.

Lemma elapse_cons has_ping w hp hps :
  elapse has_ping w (hp :: hps) = elapse has_ping (occur has_ping w hp) hps.
Proof. done. Qed.

Lemma elapse_app has_ping w hps hps' :
  elapse has_ping w (hps ++ hps') = elapse has_ping (elapse has_ping w hps) hps'.
Proof. apply foldl_app. Qed.

(** X23: the liveness probe.  On a transport with [ping], opening a
    socket arms an interval; the first tick pings; a second tick with no
    ['pong'] in between asks the socket to close, and pings again; with a
    ['pong'] in between it only pings.  What the messenger does meanwhile
    makes no difference. *)
Theorem probe_closes_a_silent_socket c l w evs evs' :
  links w !! c = Some l →
  let w1 := onopen true c w in
  let h := next_handle w in
  signals (elapse true w1 (Ticks h :: map Inner evs)) = Ping c :: signals w
  ∧ signals (elapse true w1 (Ticks h :: map Inner evs ++ [Ticks h]))
    = Ping c :: Closing c None :: Ping c :: signals w
  ∧ signals (elapse true w1
               (Ticks h :: map Inner evs ++ Pongs c :: map Inner evs'
                  ++ [Ticks h]))
    = Ping c :: Ping c :: signals w.
Proof.
  intros Hl. cbv zeta.
  set (w2 := occur true (onopen true c w) (Ticks (next_handle w))).
  assert (Hw2 : links w2 !! c = Some (Link (Some false) (Some (next_handle w))
                                        true (reconnect l))
                ∧ probes w2 !! next_handle w = Some c
                ∧ signals w2 = Ping c :: signals w).
  { unfold w2, occur, ontick, onopen. rewrite Hl. simpl.
    rewrite !lookup_insert_eq. simpl. by rewrite !lookup_insert_eq. }
  destruct Hw2 as (Hl2 & Hp2 & Hs2).
  rewrite !elapse_cons. fold w2.
  repeat rewrite ?elapse_app, ?elapse_inner, ?elapse_cons.
  unfold elapse. cbn [foldl].
  split; [done|]. split.
  - simpl. unfold ontick. simpl. rewrite Hp2, Hl2. simpl.
    by rewrite Hs2.
  - simpl. unfold onpong. simpl. rewrite Hl2. simpl.
    unfold ontick. simpl. rewrite Hp2, lookup_insert_eq. simpl.
    by rewrite Hs2.
Qed.

(** The retry armed by the close of a reconnecting socket dials the next
    socket on the messenger as the close left it. *)
Lemma retry_dials c l w :
  links w !! c = Some l →
  socket (messenger w) = Some c →
  reconnect l = true →
  messenger (onretry (next_handle w) (onclose c w))
  = (connect (with_isAuthenticated false (messenger w))).2.
Proof.
  intros Hl Hs Hre.
  destruct w as [st lk pr rt nh sg], l as [al iv li re]. simpl in *.
  unfold onclose, onretry, clearInterval. simpl. rewrite Hs. simpl.
  rewrite Hl. simpl. subst re.
  destruct iv; simpl; rewrite Hl; simpl;
    rewrite bool_decide_eq_true_2
      by (apply elem_of_union_l; by apply elem_of_singleton); done.
Qed.

(** X24: when the current socket closes, the messenger is no longer
    authenticated and the probe of the socket is disarmed, while the
    calls that are pending stay filed; if the connection was made with
    [reconnect], one timer is armed, and when it fires a new socket
    replaces the old one, again with [reconnect]; otherwise nothing is
    armed. *)
Theorem close_then_reconnect c l w :
  links w !! c = Some l →
  socket (messenger w) = Some c →
  let w1 := onclose c w in
  let w2 := onretry (next_handle w) w1 in
  isAuthenticated (messenger w1) = false
  ∧ pending (messenger w1) = pending (messenger w)
  ∧ (∀ h, interval l = Some h → probes w1 !! h = None)
  ∧ (reconnect l = false → retries w1 = retries w)
  ∧ (reconnect l = true →
     retries w1 = {[next_handle w]} ∪ retries w
     ∧ socket (messenger w2) = Some (next_id (messenger w))
     ∧ links w2 !! next_id (messenger w) = Some (Link None None false true)
     ∧ (next_handle w ∉ retries w2)
     ∧ messenger w2
       = (connect (with_isAuthenticated false (messenger w))).2
     ∧ next_handle w2 = S (next_handle w)).
Proof.
  intros Hl Hs.
  destruct w as [st lk pr rt nh sg], l as [al iv li re]. simpl in *.
  unfold onclose, onretry, clearInterval. simpl. rewrite Hs. simpl.
  rewrite Hl. simpl.
  destruct re, iv as [h0|]; simpl; rewrite Hl; simpl.
  - rewrite bool_decide_eq_true_2
      by (apply elem_of_union_l; by apply elem_of_singleton).
    unfold dial, connect. simpl. rewrite lookup_insert_eq.
    repeat split; try done.
    + intros h [= <-]. apply lookup_delete_eq.
    + rewrite elem_of_difference, elem_of_singleton. by intros [_ []].
  - rewrite bool_decide_eq_true_2
      by (apply elem_of_union_l; by apply elem_of_singleton).
    unfold dial, connect. simpl. rewrite lookup_insert_eq.
    repeat split; try done.
    rewrite elem_of_difference, elem_of_singleton. by intros [_ []].
  - repeat split; try done.
    intros h [= <-]. apply lookup_delete_eq.
  - repeat split; done.
Qed.

(** X25: a call that is pending when the connection closes is still
    answered after the reconnect: once the new connection is
    authenticated, the response settles the promise filed before the
    close. *)
Theorem call_survives_reconnect has_ping id p c l w data message :
  links w !! c = Some l →
  reconnect l = true →
  socket (messenger w) = Some c →
  filed id p (messenger w) →
  p ≠ next_id (messenger w) →
  decode data = Some message →
  answers id message →
  let c' := next_id (messenger w) in
  let w' := elapse has_ping w
              [Closes c; Retries (next_handle w);
               Inner (Message c' "ok"); Inner (Message c' data)] in
  socket (messenger w') = Some c'
  ∧ promise_state (messenger w') (PNew p) = verdict message.
Proof.
  intros Hl Hre Hs (HR & HJ & Hp) Hne Hdec Hans. cbv zeta.
  pose proof (retry_dials c l w Hl Hs Hre) as Hm.
  rewrite !elapse_cons. cbn [occur]. unfold elapse. cbn [foldl].
  cbn [messenger with_messenger]. rewrite Hm. cbn [step].
  set (st2 := (connect (with_isAuthenticated false (messenger w))).2).
  assert (Hok : onmessage (next_id (messenger w)) "ok" st2
    = invoke AtConnect (PromiseResolve (next_id (messenger w))) (VStr "ok")
        (with_isAuthenticated true st2)) by done.
  rewrite Hok. clear Hok.
  set (st3 := invoke _ _ _ _).
  assert (Hfiled : filed id p st3).
  { unfold filed, st3, invoke, settle, emit. simpl.
    destruct (settled_at (next_id (messenger w)) (settled (messenger w)));
      simpl; repeat split; try done.
    rewrite Hp. by apply Nat.eqb_neq in Hne as ->. }
  assert (Hauth : isAuthenticated st3 = true).
  { unfold st3, invoke, settle, emit. simpl. by case_match. }
  assert (Hsock : socket st3 = Some (next_id (messenger w))).
  { unfold st3, invoke, settle, emit. simpl. by case_match. }
  pose proof (response_verdict id p (next_id (messenger w)) data
                message st3 Hfiled Hauth Hdec Hans) as Hnow.
  split; [|done].
  destruct (onmessage_cases data st3)
    as [Hels | (m & _ & Hdec' & Hmethod & Hid)].
  - destruct Hans as (Hmethod & Hid & _).
    destruct Hels as [Hx | [Hx | (m & Hm' & [Hx | Hx])]];
      [congruence | congruence | |]; congruence.
  - unfold onmessage. rewrite Hauth, Hdec'. simpl.
    unfold dispatch. rewrite Hmethod, Hid.
    unfold clearTimeout, invoke_if_function, invoke, settle, emit.
    repeat case_match; done.
Qed.

(** X26: the close handler of a socket works on the messenger, not on
    its own socket: when a socket closes that is no longer the current
    one, the current connection loses its authentication and its probe,
    and the probe of the closed socket stays armed. *)
Theorem stale_close_hits_the_current_socket c s lc ls hc hs w :
  socket (messenger w) = Some s →
  s ≠ c →
  links w !! c = Some lc → interval lc = Some hc →
  links w !! s = Some ls → interval ls = Some hs →
  hc ≠ hs →
  probes w !! hc = Some c →
  let w1 := onclose c w in
  isAuthenticated (messenger w1) = false
  ∧ probes w1 !! hs = None
  ∧ probes w1 !! hc = Some c.
Proof.
  intros Hs Hne Hlc Hhc Hls Hhs Hh Hp.
  destruct w as [st lk pr rt nh sg]. simpl in *.
  unfold onclose, clearInterval. simpl. rewrite Hs. simpl.
  rewrite Hls. simpl. rewrite Hhs. simpl. rewrite Hlc.
  destruct (reconnect lc); simpl;
    by rewrite lookup_delete_eq, lookup_delete_ne.
Qed.

(** X27: [disconnect] asks the current socket to close with code 1000,
    and throws before [connect]; it does not switch the reconnect off:
    on a connection made with [reconnect], the close that follows arms
    the timer, and a new socket is dialled when it fires. *)
Theorem disconnect_is_undone_by_reconnect has_ping c l w :
  (socket (messenger w) = None → disconnect w = (Throw TypeError, w))
  ∧ (socket (messenger w) = Some c →
     links w !! c = Some l →
     reconnect l = true →
     let left := disconnect w in
     let w' := elapse has_ping left.2 [Closes c; Retries (next_handle w)] in
     left.1 = Return ()
     ∧ signals left.2 = Closing c (Some 1000%Z) :: signals w
     ∧ socket (messenger w') = Some (next_id (messenger w))
     ∧ signals w' = signals left.2).
Proof.
  unfold disconnect. split; [by intros ->|].
  intros Hs Hl Hre. rewrite Hs. cbv zeta. cbn [fst snd].
  do 2 (split; [done|]).
  set (w0 := ask (Closing c (Some 1000%Z)) w).
  assert (Hl0 : links w0 !! c = Some l) by done.
  assert (Hs0 : socket (messenger w0) = Some c) by done.
  assert (Hsock : socket (messenger (onretry (next_handle w0) (onclose c w0)))
                  = Some (next_id (messenger w))).
  { by rewrite (retry_dials c l w0 Hl0 Hs0 Hre). }
  rewrite !elapse_cons. cbn [occur]. unfold elapse. cbn [foldl].
  split; [exact Hsock|].
  destruct w as [st lk pr rt nh sg], l as [al iv li re]. simpl in *.
  unfold onclose, onretry, clearInterval, w0. simpl. rewrite Hs. simpl.
  rewrite Hl. simpl. subst re.
  destruct iv; simpl; rewrite Hl; simpl;
    rewrite bool_decide_eq_true_2
      by (apply elem_of_union_l; by apply elem_of_singleton); done.
Qed.

End Coverage.

(** * The further properties at concrete inputs *)

Lemma timer_delivers_timeout_error_witness :
  trace (fire 0 awaiting_a)
  = Invoked (AtTimeout "a") (UserFn 2) (timeout_error "a") :: trace awaiting_a.
Proof.
  exact (proj1 (timer_delivers_timeout_error (H := sample_host)
    (VStr "0xmaker") request_a (Some (UserFn 1)) (Some (UserFn 2))
    authenticated awaiting_a eq_refl)).
Defined.

Lemma failed_call_files_nothing_witness :
  socket (constructor ∅ "0xAbC") = None
  ∧ (call (H := sample_host) (VStr "0xmaker") request_a (Some (UserFn 1))
       (Some (UserFn 2)) (constructor ∅ "0xAbC")).1 = Throw TypeError.
Proof.
  split; [done|].
  exact (proj1 (failed_call_files_nothing (H := sample_host) (VStr "0xmaker")
    request_a (Some (UserFn 1)) (Some (UserFn 2)) (constructor ∅ "0xAbC")
    (or_introl eq_refl))).
Defined.

Lemma silent_call_stays_silent_witness :
  mute "a" authenticated
  ∧ firings "a"
      (run (H := sample_host)
         (call (H := sample_host) (VStr "0xmaker") request_a None None
            authenticated).2
         [TimerFires 0; Message 0 (wire response_result)])
    = firings "a" authenticated.
Proof.
  assert (Hmute : mute "a" authenticated).
  { repeat split; [vm_compute; reflexivity ..|].
    intros h t Ht. vm_compute in Ht. discriminate. }
  split; [exact Hmute|].
  refine (proj2 (proj2 (silent_call_stays_silent (H := sample_host)
    (VStr "0xmaker") request_a authenticated _
    [TimerFires 0; Message 0 (wire response_result)] eq_refl Hmute _))).
  by repeat constructor.
Defined.


Lemma bookkeeping_stays_tidy_witness :
  tidy connected
  ∧ tidy (run (H := sample_host) connected
            [Message 0 "ok"; calling_a; TimerFires 0;
             Message 0 (wire response_result)]).
Proof.
  assert (Hstart : tidy connected).
  { split; [|split; [|split]].
    - intros id [x Hx]. vm_compute in Hx. discriminate.
    - intros id [x Hx]. vm_compute in Hx. discriminate.
    - intros h t Ht. vm_compute in Ht. discriminate.
    - intros id h Hh. vm_compute in Hh. discriminate. }
  split; [exact Hstart|].
  exact (bookkeeping_stays_tidy (H := sample_host) _ connected Hstart).
Defined.

Lemma TIMEOUTS_never_forgets_witness :
  is_Some (TIMEOUTS awaiting_a !! "a")
  ∧ is_Some (TIMEOUTS
               (run (H := sample_host) awaiting_a
                  [Message 0 (wire response_result); TimerFires 0]) !! "a").
Proof.
  assert (Hin : is_Some (TIMEOUTS awaiting_a !! "a")) by by eexists.
  split; [exact Hin|].
  exact (TIMEOUTS_never_forgets (H := sample_host) "a" _ awaiting_a Hin).
Defined.

Lemma unusable_messages_are_dropped_witness :
  (isAuthenticated awaiting_a = true
   ∧ JSON_parse (Host := sample_host) "{oops" = None)
  ∧ onmessage (H := sample_host) 0 "{oops" awaiting_a = awaiting_a.
Proof.
  split; [by split|].
  exact (unusable_messages_are_dropped (H := sample_host) 0 "{oops" awaiting_a
    eq_refl (or_introl eq_refl)).
Defined.

Lemma ok_after_settlement_witness :
  let refused := onmessage (H := sample_host) 0 "not authorized" connected in
  (isAuthenticated refused = false
   ∧ promise_state refused (PNew 0)
     = Some (Rejected (VErr "Error" "Address is not authorized.")))
  ∧ isAuthenticated (onmessage (H := sample_host) 0 "ok" refused) = true
  ∧ promise_state (onmessage (H := sample_host) 0 "ok" refused) (PNew 0)
    = Some (Rejected (VErr "Error" "Address is not authorized.")).
Proof.
  split; [by split|].
  destruct (ok_after_settlement (H := sample_host) 0
    (Rejected (VErr "Error" "Address is not authorized."))
    (onmessage (H := sample_host) 0 "not authorized" connected)
    eq_refl eq_refl) as (Hauth & Hp & _).
  exact (conj Hauth Hp).
Defined.

Lemma signature_follows_the_socket_witness :
  (isAuthenticated connected = false
   ∧ messageSigner (Host := sample_host) "xyz" = Some "sig1")
  ∧ trace (signed (H := sample_host) 0
             (connect (onmessage (H := sample_host) 0 "xyz" connected)).2)
    = [Sent 1 "sig1"; Signing "xyz"].
Proof.
  split; [by split|].
  destruct (signature_follows_the_socket (H := sample_host) 0 "xyz" "sig1"
    connected eq_refl ltac:(discriminate) ltac:(discriminate) eq_refl)
    as (_ & Htr & _).
  exact Htr.
Defined.

Lemma response_settles_promise_witness :
  let asked := getQuote (H := sample_host) (VStr "0xmaker") maker_amount
                 seasoned in
  filed "uuid-2" 1 asked.2
  ∧ promise_state
      (onmessage (H := sample_host) 0 (wire response_order) asked.2) (PNew 1)
    = Some (Fulfilled (VStr "order")).
Proof.
  cbv zeta.
  assert (Hfiled : filed "uuid-2" 1
    (getQuote (H := sample_host) (VStr "0xmaker") maker_amount seasoned).2)
    by (repeat split; vm_compute; reflexivity).
  split; [exact Hfiled|].
  refine (proj1 (response_settles_promise (H := sample_host) "uuid-2" 1 0
    (wire response_order) response_order _ Hfiled eq_refl _ _)).
  - vm_compute. reflexivity.
  - by repeat split.
Defined.

Lemma timeout_rejects_promise_witness :
  let asked := getQuote (H := sample_host) (VStr "0xmaker") maker_amount
                 seasoned in
  timers asked.2 !! 0
  = Some (Timer TIMEOUT "uuid-2" (Some (PromiseReject 1)))
  ∧ promise_state
      (run (H := sample_host) (fire 0 asked.2)
         [Message 0 (wire response_order)]) (PNew 1)
    = Some (Rejected (timeout_error "uuid-2")).
Proof.
  cbv zeta.
  assert (Harmed : timers
    (getQuote (H := sample_host) (VStr "0xmaker") maker_amount seasoned).2 !! 0
    = Some (Timer TIMEOUT "uuid-2" (Some (PromiseReject 1))))
    by (vm_compute; reflexivity).
  split; [exact Harmed|].
  exact (proj2 (proj2 (timeout_rejects_promise (H := sample_host) 0 "uuid-2" 1
    _ [Message 0 (wire response_order)] Harmed eq_refl))).
Defined.

Lemma findIntents_checks_then_asks_witness :
  socket authenticated = Some 0
  ∧ findIntents (H := sample_host) "0xindexer" (VArr []) VUndef VUndef
      authenticated
    = (Throw (VErr "Error" "missing arguments makerTokens or takerTokens"),
       authenticated).
Proof.
  split; [done|].
  exact (proj1 (findIntents_checks_then_asks (H := sample_host) "0xindexer"
    (VArr []) VUndef VUndef authenticated 0 eq_refl) (or_intror eq_refl)).
Defined.

Lemma intents_helpers_ask_witness :
  socket authenticated = Some 0
  ∧ ∃ st', getIntents (H := sample_host) "0xindexer" (VStr "0xAbC")
             authenticated = (PNew 1, st')
           ∧ asks (H := sample_host) authenticated 0 (VStr "0xindexer")
               "getIntents" (VObj [("address", VStr "0xAbC")]) 1 st'.
Proof.
  split; [done|].
  exact (proj1 (intents_helpers_ask (H := sample_host) "0xindexer"
    (VStr "0xAbC") VNull authenticated 0 eq_refl)).
Defined.





Lemma getOrders_forwards_params_witness :
  NoDup (own_fields maker_amount).*1
  ∧ get (get (order_payload maker_amount (VObj []) "0xabc" "uuid-0") "params")
      "makerAmount" = VNum 1.
Proof.
  assert (Hnd : NoDup (own_fields maker_amount).*1).
  { apply (bool_decide_unpack _). vm_compute. exact I. }
  split; [exact Hnd|].
  exact (proj1 (proj2 (getOrders_forwards_params (H := sample_host)
    (own_fields maker_amount) (VObj []) authenticated 0 Hnd eq_refl eq_refl))
    "makerAmount" eq_refl).
Defined.

Lemma getOrders_stops_at_null_intent_witness :
  (nullish maker_amount = false ∧ socket authenticated = Some 0)
  ∧ ∃ st', getOrders (H := sample_host) (VArr (two_intents ++ VNull :: []))
             maker_amount authenticated = (Throw TypeError, st')
           ∧ next_timer st' = 2.
Proof.
  split; [by split|].
  destruct (getOrders_stops_at_null_intent (H := sample_host) maker_amount
    two_intents VNull [] authenticated 0 eq_refl eq_refl) as
    (st' & Hget & _ & Hnt & _); [by repeat constructor | done | done |].
  exists st'. exact (conj Hget Hnt).
Defined.

Lemma probe_closes_a_silent_socket_witness :
  links dialled !! 0 = Some (Link None None false true)
  ∧ signals (elapse (H := sample_host) true opened [Ticks 0; Ticks 0])
    = [Ping 0; Closing 0 None; Ping 0].
Proof.
  split; [done|].
  exact (proj1 (proj2 (probe_closes_a_silent_socket (H := sample_host) 0 _
    dialled [] [] eq_refl))).
Defined.

Lemma close_then_reconnect_witness :
  (links opened !! 0 = Some (Link (Some true) (Some 0) true true)
   ∧ socket (messenger opened) = Some 0)
  ∧ probes (onclose 0 opened) !! 0 = None
  ∧ socket (messenger (onretry 1 (onclose 0 opened))) = Some 1.
Proof.
  split; [by split|].
  destruct (close_then_reconnect 0 _ opened eq_refl eq_refl)
    as (_ & _ & Hprobe & _ & Hretry).
  split; [exact (Hprobe 0 eq_refl)|].
  exact (proj1 (proj2 (Hretry eq_refl))).
Defined.

Lemma stale_close_hits_the_current_socket_witness :
  (socket (messenger redialled) = Some 1
   ∧ probes redialled !! 0 = Some 0
   ∧ probes redialled !! 1 = Some 1)
  ∧ probes (onclose 0 redialled) !! 1 = None
  ∧ probes (onclose 0 redialled) !! 0 = Some 0.
Proof.
  split; [by repeat split|].
  exact (proj2 (stale_close_hits_the_current_socket 0 1 _ _ 0 1 redialled
    eq_refl ltac:(done) eq_refl eq_refl eq_refl eq_refl ltac:(done) eq_refl)).
Defined.

Lemma call_survives_reconnect_witness :
  let w := with_messenger
             (getQuote (H := sample_host) (VStr "0xmaker") maker_amount
                seasoned).2 opened in
  (links w !! 0 = Some (Link (Some true) (Some 0) true true)
   ∧ socket (messenger w) = Some 0
   ∧ filed "uuid-2" 1 (messenger w))
  ∧ promise_state
      (messenger
         (elapse (H := sample_host) true w
            [Closes 0; Retries 1; Inner (Message 2 "ok");
             Inner (Message 2 (wire response_order))]))
      (PNew 1)
    = Some (Fulfilled (VStr "order")).
Proof.
  cbv zeta.
  set (w := with_messenger _ opened).
  assert (Hfiled : filed "uuid-2" 1 (messenger w))
    by (repeat split; vm_compute; reflexivity).
  split; [by repeat split|].
  refine (proj2 (call_survives_reconnect (H := sample_host) true "uuid-2" 1 0
    _ w (wire response_order) response_order eq_refl eq_refl eq_refl Hfiled
    _ _ _)).
  - vm_compute. discriminate.
  - vm_compute. reflexivity.
  - by repeat split.
Defined.

Lemma decode_v_keeps_the_order_witness :
  ∃ fields',
    decode_v (H := sample_host) (VObj [("v", VNum 0); ("r", VStr "0x1")])
    = Return (VObj fields')
    ∧ ∀ k, get (VObj fields') k = get (VObj [("v", VNum 0); ("r", VStr "0x1")]) k.
Proof.
  exact (proj1 (decode_v_keeps_the_order (H := sample_host)
    [("v", VNum 0); ("r", VStr "0x1")]) eq_refl).
Defined.

Lemma getOrders_checks_first_witness :
  getOrders (H := sample_host) (VStr "0xmaker") maker_amount authenticated
  = (Throw (VErr "Error" "bad arguments passed to getOrders"), authenticated).
Proof.
  exact (proj2 (getOrders_checks_first (H := sample_host) (VStr "0xmaker")
    maker_amount authenticated) eq_refl
    (or_introl (λ items Heq, eq_ind (VStr "0xmaker")
       (λ v, match v with VStr _ => True | _ => False end) I _ Heq))).
Defined.

Lemma disconnect_is_undone_by_reconnect_witness :
  signals (disconnect opened).2 = [Closing 0 (Some 1000%Z)]
  ∧ socket (messenger (elapse (H := sample_host) true (disconnect opened).2
                         [Closes 0; Retries 1])) = Some 1.
Proof.
  destruct (proj2 (disconnect_is_undone_by_reconnect (H := sample_host) true 0
    _ opened) eq_refl eq_refl eq_refl) as (_ & Hsig & Hsock & _).
  exact (conj Hsig Hsock).
Defined.
